(** * Port-mapping arbitration (mapport.cpp): worker loop and dispatcher

    The worker thread [ThreadMapPort] and the control surface
    ([StartMapPort], [InterruptMapPort], [StopMapPort], [StartThreadMapPort])
    communicate through four globals.  Every access to a global is one
    atomic step of whoever performs it, so the program is embedded as two
    small state machines (one per thread of control) whose steps interleave
    freely; program points are named after the source lines they stand for. *)

From Stdlib Require Import ZArith List Bool Lia.
Import ListNotations.
Local Open Scope Z_scope.

(** ** Data *)

(** Modelled from the spec: the enum [MapPortProtoFlag] is declared in
    mapport.h, which is not among the sources.  Section 3 of the spec calls
    it a bitset over NONE, the high-priority and the low-priority protocol,
    with NONE the empty set; the two protocols are given the two lowest
    bits. *)
Inductive MapPortProtoFlag : Set := NONE | UPNP | NAT_PMP.

Definition flag_bits (p : MapPortProtoFlag) : Z :=
  match p with
  | NONE => 0
  | UPNP => 1
  | NAT_PMP => 2
  end.

Definition flag_eqb (p q : MapPortProtoFlag) : bool :=
  flag_bits p =? flag_bits q.

(** [g_mapport_enabled_protos] is a [std::atomic_uint]: a 32-bit word. *)
Definition UINT_MAX : Z := 4294967295.

(** [~x] on an unsigned 32-bit operand. *)
Definition uint_not (x : Z) : Z := Z.lxor x UINT_MAX.

(** [e & p] used as a condition. *)
Definition has_proto (e : Z) (p : MapPortProtoFlag) : bool :=
  negb (Z.land e (flag_bits p) =? 0).

(** [MapPortProtoSetEnabled(proto, enabled)], as the new value of
    [g_mapport_enabled_protos] (one atomic read-modify-write). *)
Definition MapPortProtoSetEnabled (proto : MapPortProtoFlag) (enabled : bool)
    (e : Z) : Z :=
  if enabled then Z.lor e (flag_bits proto)
  else Z.land e (uint_not (flag_bits proto)).

(** ** Control points of the worker thread *)

(** Inside [ProcessUpnp]. *)
Inductive upnp_pc : Set :=
| U_discover              (* lines 56-65: upnpDiscover, UPNP_GetValidIGD *)
| U_add                   (* line 89: UPNP_AddPortMapping *)
| U_sleep                 (* line 99: sleep_for(PORT_MAPPING_REANNOUNCE_PERIOD) *)
| U_reset (ret : bool)    (* line 100: g_mapport_interrupt.reset() *)
| U_return (ret : bool).  (* line 113: return ret *)

(** Inside [ThreadMapPort]. *)
Inductive wpc : Set :=
| W_test_upnp             (* lines 120, 124: ok = false; load enabled protos *)
| W_set_upnp              (* line 125 *)
| W_call_upnp             (* line 126, entering ProcessUpnp *)
| W_upnp (u : upnp_pc)
| W_test_natpmp           (* line 133 *)
| W_set_natpmp            (* line 134 *)
| W_call_natpmp           (* line 135, entering ProcessNatpmp *)
| W_natpmp_body
| W_natpmp_return
| W_set_none              (* line 140 *)
| W_test_none             (* line 141 *)
| W_cond (ok : bool)      (* line 145: ok || sleep_for(PORT_MAPPING_RETRY_PERIOD) *)
| W_return                (* line 142 or line 146: the function returns *)
| W_done.                 (* the thread has finished; it stays joinable *)

(** ** Control points of the control surface *)

Inductive assertion : Set := Assert_151 | Assert_178 | Assert_179.

Inductive dpc : Set :=
| D_idle                              (* no call in flight *)
| D_abort (a : assertion)             (* an assert failed: the process aborts *)
(* StartMapPort *)
| D_196 (use_upnp use_natpmp : bool)
| D_197 (use_natpmp : bool)
(* DispatchMapPort *)
| D_158_cur | D_158_en
| D_162_cur | D_162_en
| D_167_cur | D_167_en
| D_173_en | D_173_cur (e : Z)
| D_178 | D_179 | D_182
(* StartThreadMapPort *)
| D_150 | D_151 | D_152
(* InterruptMapPort; [from_dispatch] is the return address: line 169 when
   called from DispatchMapPort, the outside caller otherwise *)
| D_203 (from_dispatch : bool) | D_204 (from_dispatch : bool)
| D_205 (from_dispatch : bool)
(* StopMapPort *)
| D_211 | D_212 | D_213.

Inductive api_call : Set :=
| Call_StartMapPort (use_upnp use_natpmp : bool)
| Call_StartThreadMapPort
| Call_InterruptMapPort
| Call_StopMapPort.

Definition entry (c : api_call) : dpc :=
  match c with
  | Call_StartMapPort a b => D_196 a b
  | Call_StartThreadMapPort => D_150
  | Call_InterruptMapPort => D_203 false
  | Call_StopMapPort => D_211
  end.

(** ** Observable events (ghost logs, newest first) *)

Inductive site : Set := L124 | L133 | L141.

Inductive wevent : Set :=
| Ev_read (l : site) (e : Z)           (* the worker loaded g_mapport_enabled_protos *)
| Ev_publish (p : MapPortProtoFlag)    (* the worker stored g_mapport_current_proto *)
| Ev_upnp_call
| Ev_upnp_ret (ok : bool)
| Ev_natpmp_call
| Ev_natpmp_ret (ok : bool)
| Ev_wait (elapsed : bool)             (* the retry sleep_for of line 145 returned *)
| Ev_return.                           (* ThreadMapPort returned *)

Inductive devent : Set :=
| Dv_call (c : api_call)
| Dv_spawn
| Dv_signal
| Dv_join
| Dv_reset.

(** ** Global state *)

Record state : Set := mkState {
  g_mapport_enabled_protos : Z;
  g_mapport_current_proto : MapPortProtoFlag;
  g_mapport_interrupt : bool;          (* CThreadInterrupt's flag *)
  g_mapport_thread : option wpc;       (* None: not joinable *)
  caller : dpc;
  wtrace : list wevent;
  dtrace : list devent
}.

Definition init : state :=
  mkState 0 NONE false None D_idle [] [].

Definition set_enabled (e : Z) (s : state) : state :=
  mkState e (g_mapport_current_proto s) (g_mapport_interrupt s)
          (g_mapport_thread s) (caller s) (wtrace s) (dtrace s).

Definition set_current (p : MapPortProtoFlag) (s : state) : state :=
  mkState (g_mapport_enabled_protos s) p (g_mapport_interrupt s)
          (g_mapport_thread s) (caller s) (wtrace s) (dtrace s).

Definition set_interrupt (b : bool) (s : state) : state :=
  mkState (g_mapport_enabled_protos s) (g_mapport_current_proto s) b
          (g_mapport_thread s) (caller s) (wtrace s) (dtrace s).

Definition set_thread (t : option wpc) (s : state) : state :=
  mkState (g_mapport_enabled_protos s) (g_mapport_current_proto s)
          (g_mapport_interrupt s) t (caller s) (wtrace s) (dtrace s).

Definition goto (d : dpc) (s : state) : state :=
  mkState (g_mapport_enabled_protos s) (g_mapport_current_proto s)
          (g_mapport_interrupt s) (g_mapport_thread s) d (wtrace s) (dtrace s).

Definition wlog (ev : wevent) (s : state) : state :=
  mkState (g_mapport_enabled_protos s) (g_mapport_current_proto s)
          (g_mapport_interrupt s) (g_mapport_thread s) (caller s)
          (ev :: wtrace s) (dtrace s).

Definition dlog (ev : devent) (s : state) : state :=
  mkState (g_mapport_enabled_protos s) (g_mapport_current_proto s)
          (g_mapport_interrupt s) (g_mapport_thread s) (caller s)
          (wtrace s) (ev :: dtrace s).

Definition wgoto (pc : wpc) (s : state) : state := set_thread (Some pc) s.

(** Modelled from the spec: CThreadInterrupt lives in threadinterrupt.h, not
    among the sources.  Section 4.1: [wait] returns true if the full duration
    elapsed and false if interrupted; [signal] interrupts any current or
    future wait until [reset].  Time is abstracted: a wait may return at any
    later step, and what it returns is decided by the flag at that step. *)
Definition sleep_for (s : state) : bool := negb (g_mapport_interrupt s).

Definition joinable (s : state) : bool :=
  match g_mapport_thread s with Some _ => true | None => false end.

Section Build.

(** Whether the build defines USE_NATPMP (lines 131-138).  USE_UPNP is
    defined whenever any of this code is compiled (line 35). *)
Variable USE_NATPMP : bool.

(** The statement after the UPnP block. *)
Definition after_upnp : wpc :=
  if USE_NATPMP then W_test_natpmp else W_set_none.

(** ** One step of the worker thread

    [x] is the outcome of the external call the step performs, if it
    performs one; other steps ignore it.  The miniupnpc calls, logging,
    [AddLocal] and the freeing of the device list touch none of the four
    globals and are left out; of lines 45-114 there remain the branches on
    the results of [UPNP_GetValidIGD] and [UPNP_AddPortMapping], the
    re-announce wait and the reset of the token. *)
Definition ProcessUpnp (x : bool) (u : upnp_pc) (s : state) : state :=
  match u with
  | U_discover =>
      (* r = UPNP_GetValidIGD(...); x stands for r == 1 *)
      if x then wgoto (W_upnp U_add) s
      else wgoto (W_upnp (U_return false)) s
  | U_add =>
      (* x stands for r == UPNPCOMMAND_SUCCESS *)
      if x then wgoto (W_upnp U_sleep) s
      else wgoto (W_upnp (U_reset false)) s
  | U_sleep =>
      (* ret is true here; while (sleep_for(PORT_MAPPING_REANNOUNCE_PERIOD)) *)
      if sleep_for s then wgoto (W_upnp U_add) s
      else wgoto (W_upnp (U_reset true)) s
  | U_reset ret =>
      wgoto (W_upnp (U_return ret)) (set_interrupt false s)
  | U_return ret =>
      (* back in ThreadMapPort, lines 126-127: ok = ret; if (ok) continue; *)
      wlog (Ev_upnp_ret ret)
           (if ret then wgoto (W_cond true) s else wgoto after_upnp s)
  end.

(** Modelled from the spec: ProcessNatpmp is called at line 135 but defined
    nowhere in the sources.  Section 4.4 gives its contract: one blocking
    call returning a bool, which waits on the shared token.  Its body is
    taken as one step that may re-arm the token ([x]), as ProcessUpnp does
    at line 100; the value it returns is chosen freely at the next step. *)
Definition ProcessNatpmp (x : bool) (s : state) : state :=
  wgoto W_natpmp_return (if x then set_interrupt false s else s).

Definition ThreadMapPort (x : bool) (pc : wpc) (s : state) : option state :=
  match pc with
  | W_test_upnp =>
      (* ok = false; if (g_mapport_enabled_protos & UPNP) *)
      let e := g_mapport_enabled_protos s in
      Some (wlog (Ev_read L124 e)
              (if has_proto e UPNP then wgoto W_set_upnp s
               else wgoto after_upnp s))
  | W_set_upnp =>
      (* g_mapport_current_proto = UPNP *)
      Some (wlog (Ev_publish UPNP) (wgoto W_call_upnp (set_current UPNP s)))
  | W_call_upnp =>
      Some (wlog Ev_upnp_call (wgoto (W_upnp U_discover) s))
  | W_upnp u => Some (ProcessUpnp x u s)
  | W_test_natpmp =>
      (* if (g_mapport_enabled_protos & NAT_PMP) *)
      let e := g_mapport_enabled_protos s in
      Some (wlog (Ev_read L133 e)
              (if has_proto e NAT_PMP then wgoto W_set_natpmp s
               else wgoto W_set_none s))
  | W_set_natpmp =>
      Some (wlog (Ev_publish NAT_PMP)
              (wgoto W_call_natpmp (set_current NAT_PMP s)))
  | W_call_natpmp =>
      Some (wlog Ev_natpmp_call (wgoto W_natpmp_body s))
  | W_natpmp_body => Some (ProcessNatpmp x s)
  | W_natpmp_return =>
      (* x: the value ProcessNatpmp returns; lines 135-136:
         ok = ProcessNatpmp(); if (ok) continue; *)
      Some (wlog (Ev_natpmp_ret x)
              (if x then wgoto (W_cond true) s else wgoto W_set_none s))
  | W_set_none =>
      (* g_mapport_current_proto = NONE *)
      Some (wlog (Ev_publish NONE) (wgoto W_test_none (set_current NONE s)))
  | W_test_none =>
      (* if (g_mapport_enabled_protos == NONE) return; *)
      let e := g_mapport_enabled_protos s in
      Some (wlog (Ev_read L141 e)
              (if e =? flag_bits NONE then wgoto W_return s
               else wgoto (W_cond false) s))
  | W_cond ok =>
      (* while (ok || sleep_for(PORT_MAPPING_RETRY_PERIOD)); [continue]
         arrives here with ok = true *)
      if ok then Some (wgoto W_test_upnp s)
      else
        let elapsed := sleep_for s in
        Some (wlog (Ev_wait elapsed)
                (if elapsed then wgoto W_test_upnp s else wgoto W_return s))
  | W_return => Some (wlog Ev_return (wgoto W_done s))
  | W_done => None
  end.

Definition worker_step (x : bool) (s : state) : option state :=
  match g_mapport_thread s with
  | Some pc => ThreadMapPort x pc s
  | None => None
  end.

(** ** One step of the call in flight on the control surface *)

Definition worker_finished (s : state) : bool :=
  match g_mapport_thread s with Some W_done => true | _ => false end.

Definition caller_step (s : state) : option state :=
  match caller s with
  | D_idle => None
  | D_abort _ => None
  (* StartMapPort *)
  | D_196 use_upnp use_natpmp =>
      Some (goto (D_197 use_natpmp)
              (set_enabled (MapPortProtoSetEnabled UPNP use_upnp
                              (g_mapport_enabled_protos s)) s))
  | D_197 use_natpmp =>
      Some (goto D_158_cur
              (set_enabled (MapPortProtoSetEnabled NAT_PMP use_natpmp
                              (g_mapport_enabled_protos s)) s))
  (* DispatchMapPort, line 158:
     if (current == NONE && enabled == NONE) return; *)
  | D_158_cur =>
      if flag_eqb (g_mapport_current_proto s) NONE
      then Some (goto D_158_en s) else Some (goto D_162_cur s)
  | D_158_en =>
      if g_mapport_enabled_protos s =? flag_bits NONE
      then Some (goto D_idle s) else Some (goto D_162_cur s)
  (* line 162: if (current == NONE && enabled != NONE)
     { StartThreadMapPort(); return; } *)
  | D_162_cur =>
      if flag_eqb (g_mapport_current_proto s) NONE
      then Some (goto D_162_en s) else Some (goto D_167_cur s)
  | D_162_en =>
      if negb (g_mapport_enabled_protos s =? flag_bits NONE)
      then Some (goto D_150 s) else Some (goto D_167_cur s)
  (* line 167: if (current != NONE && enabled == NONE)
     { InterruptMapPort(); StopMapPort(); return; } *)
  | D_167_cur =>
      if negb (flag_eqb (g_mapport_current_proto s) NONE)
      then Some (goto D_167_en s) else Some (goto D_173_en s)
  | D_167_en =>
      if g_mapport_enabled_protos s =? flag_bits NONE
      then Some (goto (D_203 true) s) else Some (goto D_173_en s)
  (* line 173: if (enabled & current) return; the two loads are separate
     steps, left operand first *)
  | D_173_en => Some (goto (D_173_cur (g_mapport_enabled_protos s)) s)
  | D_173_cur e =>
      if has_proto e (g_mapport_current_proto s)
      then Some (goto D_idle s) else Some (goto D_178 s)
  (* lines 178-182: assert(joinable); assert(!interrupt); interrupt(); *)
  | D_178 =>
      if joinable s then Some (goto D_179 s)
      else Some (goto (D_abort Assert_178) s)
  | D_179 =>
      if negb (g_mapport_interrupt s) then Some (goto D_182 s)
      else Some (goto (D_abort Assert_179) s)
  | D_182 => Some (dlog Dv_signal (goto D_idle (set_interrupt true s)))
  (* StartThreadMapPort *)
  | D_150 =>
      if negb (joinable s) then Some (goto D_151 s) else Some (goto D_idle s)
  | D_151 =>
      if negb (g_mapport_interrupt s) then Some (goto D_152 s)
      else Some (goto (D_abort Assert_151) s)
  | D_152 => Some (dlog Dv_spawn (goto D_idle (wgoto W_test_upnp s)))
  (* InterruptMapPort *)
  | D_203 k => Some (goto (D_204 k) (set_enabled (flag_bits NONE) s))
  | D_204 k =>
      if joinable s then Some (goto (D_205 k) s)
      else Some (goto (if k then D_211 else D_idle) s)
  | D_205 k =>
      Some (dlog Dv_signal
              (goto (if k then D_211 else D_idle) (set_interrupt true s)))
  (* StopMapPort *)
  | D_211 =>
      if joinable s then Some (goto D_212 s) else Some (goto D_idle s)
  | D_212 =>
      (* join() blocks until the thread function has returned *)
      if worker_finished s
      then Some (dlog Dv_join (goto D_213 (set_thread None s)))
      else None
  | D_213 => Some (dlog Dv_reset (goto D_idle (set_interrupt false s)))
  end.

(** ** The interleaved system *)

Inductive action : Set :=
| A_call (c : api_call)   (* a caller enters the control surface *)
| A_caller                (* the call in flight executes its next statement *)
| A_worker (x : bool).    (* the worker executes its next statement *)

Definition aborted (s : state) : bool :=
  match caller s with D_abort _ => true | _ => false end.

(** Calls are serialized: a new call starts only when none is in flight. *)
Definition step (a : action) (s : state) : option state :=
  if aborted s then None
  else
    match a with
    | A_call c =>
        match caller s with
        | D_idle => Some (dlog (Dv_call c) (goto (entry c) s))
        | _ => None
        end
    | A_caller => caller_step s
    | A_worker x => worker_step x s
    end.

Fixpoint exec (acts : list action) (s : state) : option state :=
  match acts with
  | [] => Some s
  | a :: rest =>
      match step a s with
      | Some s' => exec rest s'
      | None => None
      end
  end.

Inductive reachable : state -> Prop :=
| reach_init : reachable init
| reach_step s a s' : reachable s -> step a s = Some s' -> reachable s'.

(** ** Case analysis on one step *)

Ltac split_ifs H :=
  repeat match type of H with
  | context [if ?b then _ else _] => destruct b eqn:?
  end.

Ltac step_cases H :=
  unfold step in H;
  match type of H with
  | (if aborted ?s then _ else _) = _ =>
      destruct (aborted s) eqn:?; [discriminate H|]
  end;
  match type of H with
  | match ?a with _ => _ end = _ => destruct a
  end;
  [ match type of H with
    | match caller ?s with _ => _ end = _ =>
        destruct (caller s) eqn:?; try discriminate H
    end
  | unfold caller_step in H;
    match type of H with
    | match caller ?s with _ => _ end = _ =>
        destruct (caller s) eqn:?; try discriminate H
    end; split_ifs H; try discriminate H
  | unfold worker_step in H;
    match type of H with
    | match g_mapport_thread ?s with _ => _ end = _ =>
        destruct (g_mapport_thread s) as [[]|] eqn:?; try discriminate H
    end;
    unfold ThreadMapPort, ProcessUpnp, ProcessNatpmp, after_upnp in H;
    repeat match type of H with
    | context [match ?u with U_discover => _ | _ => _ end] => destruct u
    end;
    split_ifs H; try discriminate H ];
  injection H as H; subst.

(** ** The worker's log follows the control flow of [ThreadMapPort] *)

(** The log entry before the UPnP block was left without a successful
    negotiation. *)
Definition skipped_upnp (prev : option wevent) : bool :=
  match prev with
  | Some (Ev_read L124 e) => negb (has_proto e UPNP)
  | Some (Ev_upnp_ret false) => true
  | _ => false
  end.

(** [wnext prev y]: the entry [y] may be logged right after [prev]
    ([None]: nothing logged yet). *)
Definition wnext (prev : option wevent) (y : wevent) : bool :=
  match y with
  | Ev_read L124 _ =>
      match prev with
      | None | Some Ev_return | Some (Ev_upnp_ret true)
      | Some (Ev_natpmp_ret true) | Some (Ev_wait true) => true
      | _ => false
      end
  | Ev_publish UPNP =>
      match prev with Some (Ev_read L124 e) => has_proto e UPNP | _ => false end
  | Ev_upnp_call =>
      match prev with Some (Ev_publish UPNP) => true | _ => false end
  | Ev_upnp_ret _ =>
      match prev with Some Ev_upnp_call => true | _ => false end
  | Ev_read L133 _ => USE_NATPMP && skipped_upnp prev
  | Ev_publish NAT_PMP =>
      match prev with
      | Some (Ev_read L133 e) => has_proto e NAT_PMP
      | _ => false
      end
  | Ev_natpmp_call =>
      match prev with Some (Ev_publish NAT_PMP) => true | _ => false end
  | Ev_natpmp_ret _ =>
      match prev with Some Ev_natpmp_call => true | _ => false end
  | Ev_publish NONE =>
      match prev with
      | Some (Ev_read L133 e) => negb (has_proto e NAT_PMP)
      | Some (Ev_natpmp_ret false) => true
      | _ => negb USE_NATPMP && skipped_upnp prev
      end
  | Ev_read L141 _ =>
      match prev with Some (Ev_publish NONE) => true | _ => false end
  | Ev_wait _ =>
      match prev with Some (Ev_read L141 e) => negb (e =? 0) | _ => false end
  | Ev_return =>
      match prev with
      | Some (Ev_read L141 e) => e =? 0
      | Some (Ev_wait false) => true
      | _ => false
      end
  end.

Fixpoint wchain (t : list wevent) : Prop :=
  match t with
  | [] => True
  | y :: older => wnext (head older) y = true /\ wchain older
  end.

(** The newest log entry determines where the worker can be. *)
Definition at_pc (t : option wpc) (h : option wevent) : bool :=
  match t with
  | None =>
      match h with None | Some Ev_return => true | _ => false end
  | Some W_test_upnp => wnext h (Ev_read L124 0)
  | Some W_set_upnp => wnext h (Ev_publish UPNP)
  | Some W_call_upnp => wnext h Ev_upnp_call
  | Some (W_upnp _) => wnext h (Ev_upnp_ret true)
  | Some W_test_natpmp => wnext h (Ev_read L133 0)
  | Some W_set_natpmp => wnext h (Ev_publish NAT_PMP)
  | Some W_call_natpmp => wnext h Ev_natpmp_call
  | Some W_natpmp_body | Some W_natpmp_return => wnext h (Ev_natpmp_ret true)
  | Some W_set_none => wnext h (Ev_publish NONE)
  | Some W_test_none => wnext h (Ev_read L141 0)
  | Some (W_cond true) =>
      match h with
      | Some (Ev_upnp_ret true) | Some (Ev_natpmp_ret true) => true
      | _ => false
      end
  | Some (W_cond false) => wnext h (Ev_wait true)
  | Some W_return => wnext h Ev_return
  | Some W_done =>
      match h with Some Ev_return => true | _ => false end
  end.

(** The value last stored into [g_mapport_current_proto], read off the log. *)
Fixpoint last_publish (t : list wevent) : MapPortProtoFlag :=
  match t with
  | [] => NONE
  | Ev_publish p :: _ => p
  | _ :: older => last_publish older
  end.

(** Control points at which the worker has cleared the active protocol. *)
Definition cleared (t : option wpc) : bool :=
  match t with
  | None | Some W_test_none | Some (W_cond false) | Some W_return
  | Some W_done => true
  | _ => false
  end.

(** Control points of the control surface at which the thread object is
    known to be joinable, resp. known not to be. *)
Definition needs_thread (d : dpc) : bool :=
  match d with
  | D_167_cur | D_167_en | D_173_en | D_173_cur _ | D_178 | D_179 | D_182
  | D_203 true | D_204 true | D_205 _ | D_212 => true
  | _ => false
  end.

Definition no_thread (d : dpc) : bool :=
  match d with
  | D_151 | D_152 | D_213 => true
  | _ => false
  end.

Definition undecided (d : dpc) : bool :=
  match d with
  | D_162_cur | D_162_en => true
  | _ => false
  end.

Definition is_D_213 (d : dpc) : bool :=
  match d with D_213 => true | _ => false end.

Definition loaded_enabled (d : dpc) : option Z :=
  match d with D_173_cur e => Some e | _ => None end.

(** Control points of StartMapPort and DispatchMapPort ahead of any effect
    on the thread or the token. *)
Definition before_effects (d : dpc) : bool :=
  match d with
  | D_196 _ _ | D_197 _ | D_158_cur | D_158_en | D_162_cur | D_162_en
  | D_167_cur | D_167_en | D_173_en | D_173_cur _ | D_178 | D_179 | D_182
  | D_203 true | D_204 true | D_205 true => true
  | _ => false
  end.

Definition started (h : option devent) : bool :=
  match h with
  | Some (Dv_call (Call_StartMapPort _ _)) => true
  | _ => false
  end.

(** The enabled set never holds a bit outside the two flags. *)
Definition valid_flags (e : Z) : bool := (0 <=? e) && (e <=? 3).

Lemma MapPortProtoSetEnabled_valid proto enabled e :
  valid_flags e = true ->
  valid_flags (MapPortProtoSetEnabled proto enabled e) = true.
Proof.
  unfold valid_flags. intros H.
  apply andb_true_iff in H as [H0 H3].
  apply Z.leb_le in H0, H3.
  assert (He : e = 0 \/ e = 1 \/ e = 2 \/ e = 3) by lia.
  destruct He as [-> | [-> | [-> | ->]]]; destruct proto, enabled; reflexivity.
Qed.

Record inv (s : state) : Prop := {
  wi_chain : wchain (wtrace s);
  wi_pc : at_pc (g_mapport_thread s) (head (wtrace s)) = true;
  wi_cur : g_mapport_current_proto s = last_publish (wtrace s);
  wi_none : cleared (g_mapport_thread s) = true ->
            g_mapport_current_proto s = NONE;
  di_thread : needs_thread (caller s) = true -> joinable s = true;
  di_nothread : no_thread (caller s) = true -> joinable s = false;
  di_either : undecided (caller s) = true ->
              joinable s = true \/ g_mapport_enabled_protos s <> 0;
  di_intr : joinable s = false -> is_D_213 (caller s) = false ->
            g_mapport_interrupt s = false;
  di_en : forall e, loaded_enabled (caller s) = Some e ->
          g_mapport_enabled_protos s = e;
  di_fresh : before_effects (caller s) = true ->
             started (head (dtrace s)) = true;
  di_valid : valid_flags (g_mapport_enabled_protos s) = true
}.

Lemma inv_init : inv init.
Proof. split; simpl; auto; discriminate. Qed.

Ltac use_eqs :=
  repeat match goal with
  | E : ?x = _ |- _ =>
      match x with
      | USE_NATPMP => idtac
      | has_proto _ _ => idtac
      | g_mapport_thread _ => idtac
      | caller _ => idtac
      | sleep_for _ => idtac
      | Z.eqb _ _ => idtac
      end;
      progress (rewrite E in * )
  end.

Ltac crush :=
  simpl in *; intros;
  repeat match goal with
  | H : ?a = ?a -> _ |- _ => specialize (H eq_refl)
  end;
  repeat match goal with
  | H : negb _ = false |- _ => apply negb_false_iff in H
  | H : negb _ = true |- _ => apply negb_true_iff in H
  | H : (_ =? _) = true |- _ => apply Z.eqb_eq in H
  | H : (_ =? _) = false |- _ => apply Z.eqb_neq in H
  | H : _ \/ _ |- _ => destruct H
  end;
  try discriminate; try congruence; auto;
  try (right; assumption).

Ltac case_thread s :=
  destruct (g_mapport_thread s) as [[]|] eqn:?.

Ltac case_head s :=
  destruct (hd_error (wtrace s)) as [[[] ?|[]| |[]| |[]|[]| ]|].

Ltac finish s :=
  unfold joinable, flag_eqb, worker_finished in *; crush;
  first
    [ solve [crush]
    | solve [case_thread s; crush]
    | solve [case_thread s; destruct (g_mapport_current_proto s) eqn:?; crush]
    | solve [case_head s; crush]
    | solve [case_thread s; case_head s; crush]
    | idtac ].

Lemma inv_step s a s' : inv s -> step a s = Some s' -> inv s'.
Proof.
  intros [Hc Hp Hl Hn Ht Hnt He Hi Hen Hf Hv] H.
  step_cases H; try destruct c; split; simpl in *; use_eqs;
    try (apply MapPortProtoSetEnabled_valid; assumption); finish s.
Qed.

Lemma reachable_inv s : reachable s -> inv s.
Proof.
  induction 1; eauto using inv_init, inv_step.
Qed.

Lemma exec_reachable acts : forall s s',
  reachable s -> exec acts s = Some s' -> reachable s'.
Proof.
  induction acts as [|a acts IH]; simpl; intros s s' Hr H.
  - congruence.
  - destruct (step a s) as [s1|] eqn:E; [|discriminate].
    eapply IH; [eapply reach_step; eassumption | assumption].
Qed.


(** ** Reading the worker's log *)

Lemma wchain_app newer older : wchain (newer ++ older) -> wchain older.
Proof.
  induction newer as [|y newer IH]; simpl; [auto | intros [_ H]; auto].
Qed.

Lemma wchain_cons y older :
  wchain (y :: older) -> wnext (head older) y = true /\ wchain older.
Proof. simpl; auto. Qed.

(** One step back in the log: what can precede the newest entry. *)
Ltac back H :=
  match type of H with
  | wchain (_ :: ?older) =>
      let Hn := fresh "Hn" in
      apply wchain_cons in H; destruct H as [Hn H];
      destruct older as [|[[] ?|[]| |[]| |[]|[]| ] older];
      simpl in Hn; try discriminate Hn;
      try (match type of Hn with
           | context [USE_NATPMP] =>
               destruct USE_NATPMP eqn:?; simpl in Hn; try discriminate Hn
           end)
  end.

Lemma last_publish_split t p :
  last_publish t = p -> p <> NONE ->
  exists newer older,
    t = newer ++ Ev_publish p :: older /\
    forall q, ~ In (Ev_publish q) newer.
Proof.
  induction t as [|y t IH]; simpl; intros H Hp; [congruence|].
  destruct y;
    try (destruct (IH H Hp) as (newer & older & -> & Hno);
         eexists (_ :: newer), older; split; [reflexivity|];
         intros q [Hq|Hq]; [discriminate | exact (Hno q Hq)]).
  subst p0. exists [], t. split; [reflexivity | intros q []].
Qed.

Lemma published_after_read newer p older :
  wchain (newer ++ Ev_publish p :: older) -> p <> NONE ->
  exists l e older', older = Ev_read l e :: older' /\ has_proto e p = true.
Proof.
  intros Hc Hp. apply wchain_app in Hc.
  destruct p; [congruence| |]; back Hc; eauto.
Qed.

(** C1: in every reachable state the active protocol is NONE or the
    protocol the worker stored right after a load of the enabled set whose
    value contained it, and that is the last store it made; more generally
    every store of a protocol other than NONE directly follows a load of the
    enabled set that contained the protocol. *)
Theorem current_proto_was_observed_enabled s :
  reachable s ->
  (g_mapport_current_proto s = NONE \/
   exists newer l e older,
     wtrace s =
       newer ++ Ev_publish (g_mapport_current_proto s) :: Ev_read l e :: older /\
     has_proto e (g_mapport_current_proto s) = true /\
     forall q, ~ In (Ev_publish q) newer) /\
  (forall newer p older,
     wtrace s = newer ++ Ev_publish p :: older -> p <> NONE ->
     exists l e older', older = Ev_read l e :: older' /\ has_proto e p = true).
Proof.
  intros Hr. destruct (reachable_inv s Hr) as [Hc _ Hl _ _ _ _ _ _ _ _].
  split.
  - destruct (g_mapport_current_proto s) eqn:Ecur; [left; reflexivity| |];
      right; symmetry in Hl;
      (destruct (last_publish_split _ _ Hl) as (newer & older & Ht & Hno);
       [discriminate|]);
      rewrite Ht in Hc;
      (destruct (published_after_read _ _ _ Hc) as (l & e & older' & -> & He);
       [discriminate|]);
      exists newer, l, e, older'; auto.
  - intros newer p older Ht Hp. rewrite Ht in Hc.
    eapply published_after_read; eassumption.
Qed.


Section AlwaysUpnp.

Variable t : list wevent.
Hypothesis Hchain : wchain t.
Hypothesis Henabled :
  forall e, In (Ev_read L124 e) t -> has_proto e UPNP = true.
Hypothesis Hsuccess : forall ok, In (Ev_upnp_ret ok) t -> ok = true.

Lemma upnp_block_not_skipped newer y x older :
  t = newer ++ y :: x :: older -> skipped_upnp (Some x) = false.
Proof.
  intros Ht.
  assert (Hin : In x t) by (rewrite Ht; apply in_or_app; right; simpl; tauto).
  destruct x as [[] e|[]| |[]| |[]|[]| ]; simpl; try reflexivity.
  - rewrite (Henabled _ Hin); reflexivity.
  - discriminate (Hsuccess _ Hin).
Qed.

Lemma no_natpmp_test e : ~ In (Ev_read L133 e) t.
Proof.
  intros Hin. apply in_split in Hin as (newer & older & Ht).
  pose proof Hchain as Hc. rewrite Ht in Hc. apply wchain_app in Hc.
  apply wchain_cons in Hc as [Hn _].
  apply andb_true_iff in Hn as [_ Hn].
  destruct older as [|x older]; [discriminate Hn|].
  simpl hd_error in Hn.
  rewrite (upnp_block_not_skipped _ _ _ _ Ht) in Hn. discriminate Hn.
Qed.

Lemma no_natpmp_call : ~ In Ev_natpmp_call t.
Proof.
  intros Hin. apply in_split in Hin as (newer & older & Ht).
  pose proof Hchain as Hc. rewrite Ht in Hc. apply wchain_app in Hc.
  back Hc. back Hc.
  apply (no_natpmp_test e). rewrite Ht.
  apply in_or_app; right; simpl; tauto.
Qed.

Lemma no_retry_wait b : ~ In (Ev_wait b) t.
Proof.
  intros Hin. apply in_split in Hin as (newer & older & Ht).
  pose proof Hchain as Hc. rewrite Ht in Hc. apply wchain_app in Hc.
  back Hc. back Hc.
  apply wchain_cons in Hc as [Hp Hc].
  destruct older as [|x older];
    [simpl in Hp; rewrite andb_false_r in Hp; discriminate Hp|].
  assert (Hx : skipped_upnp (Some x) = false).
  { apply (upnp_block_not_skipped
             (newer ++ [Ev_wait b; Ev_read L141 e]) (Ev_publish NONE) x older).
    rewrite Ht, <- app_assoc. reflexivity. }
  destruct x as [[] e'|[]| |[]| |[]|[]| ]; simpl in Hp, Hx;
    try discriminate Hp; try discriminate Hx;
    try (rewrite ?Hx, ?andb_false_r in Hp; discriminate Hp).
  - apply (no_natpmp_test e'). rewrite Ht.
    apply in_or_app; right; simpl; tauto.
  - back Hc. apply no_natpmp_call. rewrite Ht.
    apply in_or_app; right; simpl; tauto.
Qed.

End AlwaysUpnp.

(** C2: in every reachable state the worker's log shows: (a) an iteration
    whose line 124 load contains UPNP stores UPNP and enters ProcessUpnp
    next, and a NAT-PMP call is reached in an iteration only if that load did
    not contain UPNP or ProcessUpnp returned false first; (b) right after
    ProcessUpnp returns true the next thing the worker does is the line 124
    load of the next iteration (no wait, no NAT-PMP call); (c) consequently,
    if every line 124 load shows UPnP enabled and every ProcessUpnp call
    returns true, ProcessNatpmp is never called and the worker never enters
    the retry wait. *)
Theorem upnp_has_priority s :
  reachable s ->
  (forall newer y e older,
     wtrace s = newer ++ y :: Ev_read L124 e :: older ->
     has_proto e UPNP = true -> y = Ev_publish UPNP) /\
  (forall newer y older,
     wtrace s = newer ++ y :: Ev_publish UPNP :: older -> y = Ev_upnp_call) /\
  (forall newer e2 x older,
     wtrace s =
       newer ++ Ev_natpmp_call :: Ev_publish NAT_PMP :: Ev_read L133 e2
             :: x :: older ->
     x = Ev_upnp_ret false \/
     exists e, x = Ev_read L124 e /\ has_proto e UPNP = false) /\
  (forall newer y older,
     wtrace s = newer ++ y :: Ev_upnp_ret true :: older ->
     exists e, y = Ev_read L124 e) /\
  ((forall e, In (Ev_read L124 e) (wtrace s) -> has_proto e UPNP = true) ->
   (forall ok, In (Ev_upnp_ret ok) (wtrace s) -> ok = true) ->
   ~ In Ev_natpmp_call (wtrace s) /\ forall b, ~ In (Ev_wait b) (wtrace s)).
Proof.
  intros Hr. destruct (reachable_inv s Hr) as [Hc _ _ _ _ _ _ _ _ _ _].
  repeat split.
  - intros newer y e older Ht He. rewrite Ht in Hc. apply wchain_app in Hc.
    apply wchain_cons in Hc as [Hn _]. simpl in Hn.
    destruct y as [[] ?|[]| |[]| |[]|[]| ]; simpl in Hn;
      try discriminate Hn; try reflexivity;
      rewrite He in Hn; simpl in Hn;
      rewrite ?andb_false_r in Hn; discriminate Hn.
  - intros newer y older Ht. rewrite Ht in Hc. apply wchain_app in Hc.
    apply wchain_cons in Hc as [Hn _]. simpl in Hn.
    destruct y as [[] ?|[]| |[]| |[]|[]| ]; simpl in Hn;
      try discriminate Hn; try reflexivity;
      rewrite ?andb_false_r in Hn; discriminate Hn.
  - intros newer e2 x older Ht. rewrite Ht in Hc. apply wchain_app in Hc.
    do 2 (apply wchain_cons in Hc as [_ Hc]).
    apply wchain_cons in Hc as [Hn _]. simpl in Hn.
    apply andb_true_iff in Hn as [_ Hn].
    destruct x as [[] e|[]| |[]| |[]|[]| ]; simpl in Hn; try discriminate Hn.
    + right. exists e. split; [reflexivity | apply negb_true_iff; exact Hn].
    + left; reflexivity.
  - intros newer y older Ht. rewrite Ht in Hc. apply wchain_app in Hc.
    apply wchain_cons in Hc as [Hn _]. simpl in Hn.
    destruct y as [[] e|[]| |[]| |[]|[]| ]; simpl in Hn;
      try discriminate Hn; eauto;
      rewrite ?andb_false_r in Hn; discriminate Hn.
  - apply no_natpmp_call; assumption.
  - intros b. apply no_retry_wait; assumption.
Qed.

(** ** What follows a given log entry *)

Lemma wchain_pair newer y x older :
  wchain (newer ++ y :: x :: older) -> wnext (Some x) y = true.
Proof.
  intros H. apply wchain_app in H. apply wchain_cons in H as [H _]. exact H.
Qed.

Ltac case_event y :=
  destruct y as [[] ?|[]| |[]| |[]|[]| ].

(** Successors of [x], from an adjacency fact [Hn : wnext (Some x) y = true]. *)
Ltac fwd Hn y :=
  case_event y; simpl in Hn; rewrite ?andb_false_r in Hn;
  try discriminate Hn.

Definition is_failure (ev : wevent) : bool :=
  match ev with
  | Ev_upnp_ret false | Ev_natpmp_ret false => true
  | _ => false
  end.

Definition is_call (ev : wevent) : bool :=
  match ev with
  | Ev_upnp_call | Ev_natpmp_call => true
  | _ => false
  end.

(** C5, as the code has it: when the retry wait of line 145 elapses the
    worker's next action is the line 124 load of a new iteration; when it is
    interrupted the worker's next action is to return from ThreadMapPort. *)
Theorem retry_wait_outcome s :
  reachable s ->
  (forall newer y older,
     wtrace s = newer ++ y :: Ev_wait true :: older ->
     exists e, y = Ev_read L124 e) /\
  (forall newer y older,
     wtrace s = newer ++ y :: Ev_wait false :: older -> y = Ev_return).
Proof.
  intros Hr. pose proof (wi_chain _ (reachable_inv s Hr)) as Hc.
  split; intros newer y older Ht; rewrite Ht in Hc;
    apply wchain_pair in Hc; fwd Hc y; eauto.
Qed.


Lemma wchain_mid c mid y x older :
  wchain (c :: mid ++ y :: x :: older) -> wnext (Some x) y = true.
Proof. apply (wchain_pair (c :: mid)). Qed.

Ltac in_log := rewrite ?in_app_iff; simpl; intuition auto.

(** Walk forward in time from the entry [x] of
    [Hc : wchain (c :: mid ++ x :: rest)] towards [c], one entry per round. *)
Ltac walk n :=
  lazymatch n with
  | O => idtac
  | S ?n' =>
      match goal with
      | Hc : wchain (?c :: ?mid ++ _ :: _) |- _ =>
          let y := fresh "y" in
          let Hn := fresh "Hn" in
          induction mid as [|y mid _] using rev_ind;
          [ pose proof (wchain_pair [] c _ _ Hc) as Hn;
            fwd Hn c; try discriminate;
            try solve [right; right; repeat split;
                       eexists; split; [reflexivity | eassumption]]
          | rewrite <- app_assoc in Hc; cbn [app] in Hc;
            pose proof (wchain_mid _ _ _ _ _ Hc) as Hn; fwd Hn y;
            try solve [left; in_log];
            try solve [right; left; in_log];
            try solve [
              match goal with
              | Hmid : forall x, In x _ -> is_call x = false |- _ =>
                  exfalso;
                  first
                    [ assert (is_call Ev_natpmp_call = false)
                        by (apply Hmid; in_log); discriminate
                    | assert (is_call Ev_upnp_call = false)
                        by (apply Hmid; in_log); discriminate ]
              end];
            walk n' ]
      end
  end.

(** C4, as the code has it: the first negotiation call after a failed one is
    separated from it by a retry wait that elapsed or by a return of
    ThreadMapPort, except that a failed ProcessUpnp is followed in the same
    iteration, without any wait, by the NAT-PMP attempt when the line 133
    load shows NAT-PMP enabled. *)
Theorem after_failed_negotiation s :
  reachable s ->
  forall newer c mid f older,
    wtrace s = newer ++ c :: mid ++ f :: older ->
    is_failure f = true -> is_call c = true ->
    (forall x, In x mid -> is_call x = false) ->
    In (Ev_wait true) mid \/ In Ev_return mid \/
    (f = Ev_upnp_ret false /\ c = Ev_natpmp_call /\
     exists e, mid = [Ev_publish NAT_PMP; Ev_read L133 e] /\
               has_proto e NAT_PMP = true).
Proof.
  intros Hr newer c mid f older Ht Hf Hcall Hmid.
  pose proof (wi_chain _ (reachable_inv s Hr)) as Hc.
  rewrite Ht in Hc. apply wchain_app in Hc. clear Ht.
  destruct f as [| | |[]| |[]| |]; try discriminate Hf; clear Hf.
  - walk 6%nat.
  - walk 6%nat.
Qed.

(** ** Runs of one call on the control surface *)

Definition is_call_action (a : action) : bool :=
  match a with A_call _ => true | _ => false end.

(** No further call is started during the run. *)
Definition same_call (acts : list action) : bool :=
  forallb (fun a => negb (is_call_action a)) acts.

Lemma run_invariant (P : state -> Prop) :
  (forall s a s',
     reachable s -> P s -> is_call_action a = false ->
     step a s = Some s' -> P s') ->
  forall acts s s',
    reachable s -> P s -> same_call acts = true ->
    exec acts s = Some s' -> P s'.
Proof.
  intros Hstep. induction acts as [|a acts IH]; simpl; intros s s' Hr HP Hs H.
  - congruence.
  - apply andb_true_iff in Hs as [Ha Hs]. apply negb_true_iff in Ha.
    destruct (step a s) as [s1|] eqn:E; [|discriminate].
    apply (IH s1 s'); eauto using reach_step.
Qed.

(** The worker never touches the enabled set, the thread object, the
    control surface or its log. *)
Lemma worker_step_frame x s s' :
  worker_step x s = Some s' ->
  g_mapport_enabled_protos s' = g_mapport_enabled_protos s /\
  joinable s' = true /\ joinable s = true /\
  caller s' = caller s /\ dtrace s' = dtrace s.
Proof.
  unfold worker_step, joinable. intros H.
  destruct (g_mapport_thread s) as [[]|] eqn:?; try discriminate H;
    unfold ThreadMapPort, ProcessUpnp, ProcessNatpmp, after_upnp in H;
    repeat match type of H with
    | context [match ?u with U_discover => _ | _ => _ end] => destruct u
    end;
    split_ifs H; injection H as H; subst; simpl; auto.
Qed.

(** The state in which InterruptMapPort, entered from [s0], can be at each
    of its control points. *)
Definition interrupt_progress (s0 s : state) : Prop :=
  joinable s = joinable s0 /\
  match caller s with
  | D_203 false =>
      dtrace s = Dv_call Call_InterruptMapPort :: dtrace s0
  | D_204 false =>
      g_mapport_enabled_protos s = 0 /\
      dtrace s = Dv_call Call_InterruptMapPort :: dtrace s0
  | D_205 false =>
      g_mapport_enabled_protos s = 0 /\ joinable s0 = true /\
      dtrace s = Dv_call Call_InterruptMapPort :: dtrace s0
  | D_idle =>
      g_mapport_enabled_protos s = 0 /\
      dtrace s =
        (if joinable s0 then [Dv_signal] else [])
          ++ Dv_call Call_InterruptMapPort :: dtrace s0
  | _ => False
  end.

Lemma interrupt_progress_step s0 s a s' :
  interrupt_progress s0 s -> is_call_action a = false ->
  step a s = Some s' -> interrupt_progress s0 s'.
Proof.
  unfold interrupt_progress. intros [Hj HP] Ha H.
  unfold step in H. destruct (aborted s); [discriminate H|].
  destruct a as [c| |x]; [discriminate Ha| |].
  - unfold caller_step in H.
    destruct (caller s) as [| | | | | | | | | | | | | | | | | | [] | [] | []
                            | | | ] eqn:Hd;
      try contradiction; try discriminate H;
      split_ifs H; injection H as H; subst; unfold joinable in *; simpl in *;
      destruct (g_mapport_thread s0), (g_mapport_thread s); simpl in *;
      intuition congruence.
  - destruct (worker_step_frame _ _ _ H) as (He & Hj1 & Hj2 & Hd & Ht).
    rewrite Hd, He, Ht, Hj1, <- Hj, Hj2. rewrite <- Hj, Hj2 in HP.
    split; [reflexivity | exact HP].
Qed.

(** C3, as the code has it: InterruptMapPort stores NONE into the enabled
    set, whatever it held, and signals the token exactly when the thread is
    joinable; it neither spawns nor joins.  This holds for every
    interleaving of the call with the worker. *)
Theorem InterruptMapPort_clears_enabled_protos s acts s' :
  reachable s -> caller s = D_idle -> same_call acts = true ->
  exec (A_call Call_InterruptMapPort :: acts) s = Some s' ->
  caller s' = D_idle ->
  g_mapport_enabled_protos s' = 0 /\
  joinable s' = joinable s /\
  dtrace s' =
    (if joinable s then [Dv_signal] else [])
      ++ Dv_call Call_InterruptMapPort :: dtrace s.
Proof.
  intros Hr Hidle Hsame H Hend. simpl in H.
  destruct (step (A_call Call_InterruptMapPort) s) as [s1|] eqn:E;
    [|discriminate H].
  assert (HP : interrupt_progress s s1).
  { unfold step in E. destruct (aborted s); [discriminate E|].
    simpl in E. rewrite Hidle in E. injection E as <-.
    unfold interrupt_progress. simpl. split; reflexivity. }
  assert (HP' : interrupt_progress s s').
  { apply (run_invariant (interrupt_progress s)) with (acts := acts) (s := s1);
      auto.
    - intros; eapply interrupt_progress_step; eassumption.
    - eapply reach_step; eassumption. }
  destruct HP' as [Hj HP']. rewrite Hend in HP'. intuition.
Qed.

(** *** The worker winds down once the enabled set is empty and the token
    signaled *)

(** Control points from which the worker reaches no further wait while the
    enabled set stays empty. *)
Definition settled (t : option wpc) : bool :=
  match t with
  | Some W_set_upnp | Some W_call_upnp
  | Some (W_upnp U_discover) | Some (W_upnp U_add) | Some (W_upnp U_sleep)
  | Some W_set_natpmp | Some W_call_natpmp | Some W_natpmp_body
  | Some (W_cond false) => false
  | _ => true
  end.

(** A bound on the number of steps the worker still takes. *)
Definition steps_left (t : option wpc) : nat :=
  match t with
  | None | Some W_done => 0
  | Some W_return => 1
  | Some W_test_none | Some (W_cond false) => 2
  | Some W_set_none => 3
  | Some W_test_natpmp => 4
  | Some W_test_upnp => 5
  | Some (W_cond true) => 6
  | Some W_natpmp_return | Some (W_upnp (U_return _)) => 7
  | Some W_natpmp_body | Some (W_upnp (U_reset _)) => 8
  | Some W_call_natpmp | Some (W_upnp U_sleep) => 9
  | Some W_set_natpmp | Some (W_upnp U_add) => 10
  | Some (W_upnp U_discover) => 11
  | Some W_call_upnp => 12
  | Some W_set_upnp => 13
  end%nat.

Definition draining (s : state) : Prop :=
  g_mapport_enabled_protos s = 0 /\
  (g_mapport_interrupt s = true \/ settled (g_mapport_thread s) = true).

Lemma draining_step x s s' :
  draining s -> worker_step x s = Some s' ->
  draining s' /\
  (steps_left (g_mapport_thread s') < steps_left (g_mapport_thread s))%nat.
Proof.
  unfold draining, worker_step, sleep_for. intros [He Hs] H.
  destruct (g_mapport_thread s) as [[]|] eqn:?; try discriminate H;
    unfold ThreadMapPort, ProcessUpnp, ProcessNatpmp, after_upnp, sleep_for
      in H;
    rewrite ?He in H; simpl in H;
    repeat match type of H with
    | context [match ?u with U_discover => _ | _ => _ end] => destruct u
    end;
    simpl in Hs; destruct Hs as [Hs|Hs]; try discriminate Hs;
    rewrite ?Hs in H; simpl in H;
    split_ifs H; try discriminate H; try discriminate Hs;
    injection H as H; subst; simpl; auto 6 with arith.
Qed.

Lemma draining_can_step x s :
  worker_finished s = false -> joinable s = true ->
  exists s', worker_step x s = Some s'.
Proof.
  unfold worker_finished, joinable, worker_step.
  destruct (g_mapport_thread s) as [[| | | | | | | | | | |[]| |]|];
    simpl; intros; try discriminate; eauto.
Qed.

(** The worker alone, for as long as it has a step to take. *)
Fixpoint worker_run (xs : list bool) (s : state) : state :=
  match xs with
  | [] => s
  | x :: rest =>
      match worker_step x s with
      | Some s' => worker_run rest s'
      | None => s
      end
  end.

Lemma worker_run_frame xs : forall s,
  caller (worker_run xs s) = caller s /\
  dtrace (worker_run xs s) = dtrace s /\
  joinable (worker_run xs s) = joinable s.
Proof.
  induction xs as [|x xs IH]; simpl; intros s; auto.
  destruct (worker_step x s) as [s'|] eqn:E; auto.
  destruct (worker_step_frame _ _ _ E) as (_ & Hj1 & Hj2 & Hd & Ht).
  destruct (IH s') as (-> & -> & ->). rewrite Hd, Ht, Hj1, Hj2. auto.
Qed.

Lemma draining_worker_finishes xs : forall s,
  draining s -> joinable s = true ->
  (steps_left (g_mapport_thread s) <= length xs)%nat ->
  worker_finished (worker_run xs s) = true.
Proof.
  induction xs as [|x xs IH]; simpl; intros s Hd Hj Hn.
  - unfold joinable, worker_finished in *.
    destruct (g_mapport_thread s) as [[| | |[]| | | | | | | |[]| |]|];
      simpl in Hn; try discriminate; try reflexivity; lia.
  - destruct (worker_finished s) eqn:Hf.
    + unfold worker_finished, worker_step in *.
      destruct (g_mapport_thread s) as [[]|] eqn:E; try discriminate Hf.
      simpl. unfold worker_finished. rewrite E. reflexivity.
    + destruct (draining_can_step x s Hf Hj) as [s' E]. rewrite E.
      destruct (draining_step _ _ _ Hd E) as [Hd' Hlt].
      apply IH; [assumption | | lia].
      apply (worker_step_frame _ _ _ E).
Qed.

(** The state in which the branch of lines 167-171 of DispatchMapPort,
    taken from [s0], can be at each of its control points. *)
Definition disable_progress (s0 s : state) : Prop :=
  match caller s with
  | D_167_en | D_203 true | D_204 true | D_205 true =>
      g_mapport_enabled_protos s = 0 /\ joinable s = true /\
      dtrace s = dtrace s0
  | D_211 | D_212 =>
      joinable s = true /\ draining s /\
      dtrace s = Dv_signal :: dtrace s0
  | D_213 =>
      joinable s = false /\ head (wtrace s) = Some Ev_return /\
      dtrace s = Dv_join :: Dv_signal :: dtrace s0
  | D_idle =>
      joinable s = false /\ head (wtrace s) = Some Ev_return /\
      g_mapport_interrupt s = false /\
      dtrace s = Dv_reset :: Dv_join :: Dv_signal :: dtrace s0
  | _ => False
  end.

Lemma disable_progress_step s0 s a s' :
  reachable s -> disable_progress s0 s -> is_call_action a = false ->
  step a s = Some s' -> disable_progress s0 s'.
Proof.
  unfold disable_progress. intros Hr HP Ha H.
  pose proof (wi_pc _ (reachable_inv s Hr)) as Hpc.
  unfold step in H. destruct (aborted s); [discriminate H|].
  destruct a as [c| |x]; [discriminate Ha| |].
  - unfold caller_step in H.
    destruct (caller s) as [| | | | | | | | | | | | | | | | | | [] | [] | []
                            | | | ] eqn:Hd;
      try contradiction; try discriminate H;
      split_ifs H; try discriminate H; injection H as H; subst;
      unfold draining, joinable, worker_finished in *; simpl in *;
      destruct (g_mapport_thread s) as [[]|]; simpl in *;
      try discriminate;
      try (destruct (hd_error (wtrace s)) as [[]|]; try discriminate Hpc);
      try (apply Z.eqb_neq in Heqb);
      intuition congruence.
  - destruct (worker_step_frame _ _ _ H) as (He & Hj1 & Hj2 & Hd & Ht).
    rewrite Hd, He, Ht, Hj1. rewrite Hj2 in HP.
    destruct (caller s) as [| | | | | | | | | | | | | | | | | | [] | [] | []
                            | | | ];
      try contradiction; try exact HP;
      try (destruct HP as (_ & Hdr & Hdt); repeat split; auto;
           apply (draining_step _ _ _ Hdr H));
      destruct HP; discriminate.
Qed.

Lemma steps_left_bound t : (steps_left t <= 13)%nat.
Proof.
  destruct t as [[| | |[]| | | | | | | |[]| |]|]; simpl; lia.
Qed.

(** C6: from any reachable state in which DispatchMapPort has loaded an
    active protocol other than NONE at line 167 and the enabled set is
    NONE, every run of the call (interleaved at will with the worker)
    (1) on return has signaled the token, then joined the worker, whose
    thread function had returned, then reset the token, and nothing else,
    leaving the thread object not joinable and the token un-signaled;
    (2) once blocked in join, is unblocked after at most 13 steps of the
    worker, whatever its external calls return; (3) is blocked nowhere
    else. *)
Theorem disable_all_interrupts_joins_resets s acts s' :
  reachable s -> caller s = D_167_en -> g_mapport_enabled_protos s = 0 ->
  same_call acts = true -> exec acts s = Some s' ->
  (caller s' = D_idle ->
   dtrace s' = Dv_reset :: Dv_join :: Dv_signal :: dtrace s /\
   head (wtrace s') = Some Ev_return /\
   joinable s' = false /\
   g_mapport_interrupt s' = false) /\
  (caller s' = D_212 ->
   forall xs, (13 <= length xs)%nat ->
   worker_finished (worker_run xs s') = true /\
   exists s'', step A_caller (worker_run xs s') = Some s'') /\
  (caller s' <> D_idle -> caller s' <> D_212 ->
   exists s'', step A_caller s' = Some s'').
Proof.
  intros Hr Hd He Hsame H.
  assert (HP : disable_progress s s).
  { unfold disable_progress. rewrite Hd. repeat split; auto.
    apply (di_thread _ (reachable_inv s Hr)). rewrite Hd. reflexivity. }
  assert (HP' : disable_progress s s').
  { apply (run_invariant (disable_progress s)) with (acts := acts) (s := s);
      auto.
    intros; eapply disable_progress_step; eassumption. }
  unfold disable_progress in HP'. split; [|split].
  - intros Hend. rewrite Hend in HP'. intuition.
  - intros Hend xs Hlen. rewrite Hend in HP'. destruct HP' as (Hj & Hdr & _).
    assert (Hf : worker_finished (worker_run xs s') = true).
    { apply draining_worker_finishes; auto.
      pose proof (steps_left_bound (g_mapport_thread s')). lia. }
    split; [exact Hf|].
    destruct (worker_run_frame xs s') as (Hc & _ & _).
    unfold step, aborted, caller_step. rewrite Hc, Hend, Hf. eauto.
  - intros Hn1 Hn2. unfold step, aborted, caller_step.
    destruct (caller s') as [| | | | | | | | | | | | | | | | | | [] | [] | []
                            | | | ];
      try contradiction; try congruence;
      repeat match goal with
      | |- context [if ?b then _ else _] => destruct b
      end; eauto.
Qed.


(** ** A call executed without interference *)

Fixpoint finish_call (fuel : nat) (s : state) : option state :=
  match caller s with
  | D_idle => Some s
  | _ =>
      match fuel with
      | O => None
      | S fuel' =>
          match step A_caller s with
          | Some s' => finish_call fuel' s'
          | None => None
          end
      end
  end.

(** The call [c] run from entry to return with no worker step in between
    ([None] if it aborts or blocks in join). *)
Definition invoke (c : api_call) (s : state) : option state :=
  match step (A_call c) s with
  | Some s' => finish_call 16 s'
  | None => None
  end.

Lemma valid_flags_cases e :
  valid_flags e = true -> e = 0 \/ e = 1 \/ e = 2 \/ e = 3.
Proof.
  unfold valid_flags. intros H. apply andb_true_iff in H as [H0 H3].
  apply Z.leb_le in H0, H3. lia.
Qed.

(** C8: (1) whenever DispatchMapPort finds at line 173 that the enabled
    set it loaded contains the active protocol, that value is the current
    enabled set, the active protocol is not NONE, the call has done nothing
    since it was entered but update the enabled set, and its next step is
    the return of line 175, which leaves every global and both logs as they
    are; (2) so a StartMapPort call whose resulting enabled set contains the
    active protocol, run without interference, changes the enabled set only,
    and repeating it changes nothing at all (besides the record of the call). *)
Theorem still_enabled_protocol_is_left_alone s :
  reachable s ->
  (forall e,
     caller s = D_173_cur e ->
     has_proto e (g_mapport_current_proto s) = true ->
     e = g_mapport_enabled_protos s /\
     g_mapport_current_proto s <> NONE /\
     (exists a b rest, dtrace s = Dv_call (Call_StartMapPort a b) :: rest) /\
     step A_caller s = Some (goto D_idle s)) /\
  (forall a b,
     caller s = D_idle ->
     has_proto
       (MapPortProtoSetEnabled NAT_PMP b
          (MapPortProtoSetEnabled UPNP a (g_mapport_enabled_protos s)))
       (g_mapport_current_proto s) = true ->
     let c := Call_StartMapPort a b in
     let s1 :=
       dlog (Dv_call c)
         (set_enabled
            (MapPortProtoSetEnabled NAT_PMP b
               (MapPortProtoSetEnabled UPNP a (g_mapport_enabled_protos s)))
            s) in
     invoke c s = Some s1 /\ invoke c s1 = Some (dlog (Dv_call c) s1)).
Proof.
  intros Hr. pose proof (reachable_inv s Hr) as Hi. split.
  - intros e Hd He. repeat split.
    + symmetry. apply (di_en _ Hi). rewrite Hd. reflexivity.
    + intros Hcur. rewrite Hcur in He. unfold has_proto in He. simpl in He.
      rewrite Z.land_0_r in He. discriminate He.
    + pose proof (di_fresh _ Hi) as Hf. rewrite Hd in Hf.
      specialize (Hf eq_refl).
      destruct (dtrace s) as [|[[]| | | |] rest]; try discriminate Hf.
      eauto.
    + unfold step, aborted, caller_step. rewrite Hd, He. reflexivity.
  - intros a b Hd He c s1. subst c s1.
    pose proof (valid_flags_cases _ (di_valid _ Hi)) as Hv.
    destruct s as [en cur it th d wt dt]. simpl in *. subst d.
    destruct Hv as [-> | [-> | [-> | ->]]]; destruct a, b, cur;
      try discriminate He; split; reflexivity.
Qed.

(** The assertions of lines 151 and 178 never fail. *)
Lemma asserts_151_178_hold s :
  reachable s ->
  caller s <> D_abort Assert_151 /\ caller s <> D_abort Assert_178.
Proof.
  induction 1 as [|s a s' Hr IH H].
  - split; discriminate.
  - destruct (reachable_inv s Hr) as [_ _ _ _ Ht Hnt _ Hi _ _ _].
    destruct IH as [IH1 IH2].
    step_cases H; try destruct c; simpl in *; use_eqs; simpl in *;
      split; try discriminate; try assumption.
    + specialize (Ht eq_refl). discriminate Ht.
    + specialize (Hi (Hnt eq_refl) eq_refl).
      apply negb_false_iff in Heqb0. congruence.
Qed.

(** * Further properties of the code

    ** The enabled set as a bit vector (MapPortProtoSetEnabled, StartMapPort) *)

(** The bit a flag occupies. *)
Definition flag_index (p : MapPortProtoFlag) : option Z :=
  match p with
  | NONE => None
  | UPNP => Some 0
  | NAT_PMP => Some 1
  end.

Definition is_index (p : MapPortProtoFlag) (n : Z) : bool :=
  match flag_index p with
  | Some k => k =? n
  | None => false
  end.

Lemma flag_bits_testbit p n : Z.testbit (flag_bits p) n = is_index p n.
Proof.
  destruct p; unfold is_index; simpl flag_index; simpl flag_bits.
  - apply Z.bits_0.
  - apply (Z.pow2_bits_eqb 0 n). lia.
  - apply (Z.pow2_bits_eqb 1 n). lia.
Qed.

Lemma uint_high_bits e n :
  0 <= e <= UINT_MAX -> 32 <= n -> Z.testbit e n = false.
Proof.
  unfold UINT_MAX. intros He Hn.
  destruct (Z.eq_dec e 0) as [->|Hz]; [apply Z.bits_0|].
  apply Z.bits_above_log2; [lia|].
  assert (Z.log2 e < 32); [|lia].
  apply Z.log2_lt_pow2; [lia|]. change (2 ^ 32) with 4294967296. lia.
Qed.

Lemma UINT_MAX_testbit n : 0 <= n -> Z.testbit UINT_MAX n = (n <? 32).
Proof. intros Hn. apply (Z.testbit_ones_nonneg 32 n); lia. Qed.

Lemma uint_range_of_bits x :
  0 <= x -> (forall n, 32 <= n -> Z.testbit x n = false) -> 0 <= x <= UINT_MAX.
Proof.
  intros H0 Hb. split; [exact H0|].
  assert (x = Z.land x UINT_MAX) as ->.
  { apply Z.bits_inj'. intros n Hn.
    rewrite Z.land_spec, UINT_MAX_testbit by exact Hn.
    destruct (n <? 32) eqn:E.
    - rewrite andb_true_r. reflexivity.
    - rewrite andb_false_r. apply Hb. apply Z.ltb_ge in E. exact E. }
  change UINT_MAX with (Z.ones 32). rewrite Z.land_ones by lia.
  pose proof (Z.mod_pos_bound x (2 ^ 32)). change (Z.ones 32) with (2 ^ 32 - 1).
  lia.
Qed.

(** X1: on a 32-bit word MapPortProtoSetEnabled(proto, enabled) yields a
    32-bit word in which the bit of [proto] equals [enabled] and every other
    bit is as before (so it changes nothing for proto = NONE). *)
Theorem MapPortProtoSetEnabled_bits proto enabled e :
  0 <= e <= UINT_MAX ->
  0 <= MapPortProtoSetEnabled proto enabled e <= UINT_MAX /\
  forall n, 0 <= n ->
    Z.testbit (MapPortProtoSetEnabled proto enabled e) n =
      if is_index proto n then enabled else Z.testbit e n.
Proof.
  intros He.
  assert (Hbits : forall n, 0 <= n ->
    Z.testbit (MapPortProtoSetEnabled proto enabled e) n =
      if is_index proto n then enabled else Z.testbit e n).
  { intros n Hn. unfold MapPortProtoSetEnabled, uint_not.
    destruct enabled.
    - rewrite Z.lor_spec, flag_bits_testbit.
      destruct (is_index proto n); [apply orb_true_r | apply orb_false_r].
    - rewrite Z.land_spec, Z.lxor_spec, flag_bits_testbit,
        UINT_MAX_testbit by exact Hn.
      destruct (is_index proto n) eqn:Ei.
      + assert ((n <? 32) = true) as ->.
        { apply Z.ltb_lt. unfold is_index in Ei.
          destruct proto; cbn [flag_index] in Ei; try discriminate Ei;
            apply Z.eqb_eq in Ei; lia. }
        apply andb_false_r.
      + simpl. destruct (n <? 32) eqn:E; [apply andb_true_r|].
        rewrite andb_false_r. symmetry. apply uint_high_bits; [exact He|].
        apply Z.ltb_ge in E. exact E. }
  split; [|exact Hbits].
  apply uint_range_of_bits.
  - unfold MapPortProtoSetEnabled, uint_not. destruct enabled.
    + apply Z.lor_nonneg. split; [lia | destruct proto; simpl; lia].
    + apply Z.land_nonneg. left. lia.
  - intros n Hn. rewrite Hbits by lia.
    assert (is_index proto n = false) as ->.
    { unfold is_index. destruct proto; cbn [flag_index]; try reflexivity;
        apply Z.eqb_neq; lia. }
    apply uint_high_bits; assumption.
Qed.

Lemma land_pow2 e k :
  0 <= k -> Z.land e (2 ^ k) = if Z.testbit e k then 2 ^ k else 0.
Proof.
  intros Hk. apply Z.bits_inj'. intros n Hn.
  rewrite Z.land_spec, Z.pow2_bits_eqb by exact Hk.
  destruct (k =? n) eqn:E.
  - apply Z.eqb_eq in E. subst n. rewrite andb_true_r.
    destruct (Z.testbit e k);
      [symmetry; apply Z.pow2_bits_true; exact Hk | symmetry; apply Z.bits_0].
  - rewrite andb_false_r.
    destruct (Z.testbit e k);
      [rewrite Z.pow2_bits_eqb by exact Hk; rewrite E; reflexivity
      | symmetry; apply Z.bits_0].
Qed.

(** [e & p] as a condition tests the bit of [p]. *)
Lemma has_proto_testbit e p :
  has_proto e p =
    match flag_index p with
    | Some k => Z.testbit e k
    | None => false
    end.
Proof.
  unfold has_proto. destruct p; cbn [flag_index flag_bits].
  - rewrite Z.land_0_r. reflexivity.
  - change 1 with (2 ^ 0). rewrite land_pow2 by lia.
    destruct (Z.testbit e 0); reflexivity.
  - change 2 with (2 ^ 1). rewrite land_pow2 by lia.
    destruct (Z.testbit e 1); reflexivity.
Qed.

(** X2: after MapPortProtoSetEnabled(p, b) the test [enabled & q] of a
    protocol q gives b when q is p and is unchanged otherwise. *)
Theorem MapPortProtoSetEnabled_has_proto p b e q :
  0 <= e <= UINT_MAX -> q <> NONE ->
  has_proto (MapPortProtoSetEnabled p b e) q =
    if flag_eqb p q then b else has_proto e q.
Proof.
  intros He Hq.
  destruct (MapPortProtoSetEnabled_bits p b e He) as [_ Hbits].
  rewrite !has_proto_testbit.
  destruct q; [congruence| |]; cbn [flag_index];
    rewrite Hbits by lia; destruct p; reflexivity.
Qed.

(** The enabled set StartMapPort(use_upnp, use_natpmp) asks for. *)
Definition requested (use_upnp use_natpmp : bool) : Z :=
  (if use_upnp then flag_bits UPNP else 0)
  + (if use_natpmp then flag_bits NAT_PMP else 0).

Lemma StartMapPort_updates use_upnp use_natpmp e :
  valid_flags e = true ->
  MapPortProtoSetEnabled NAT_PMP use_natpmp
    (MapPortProtoSetEnabled UPNP use_upnp e) = requested use_upnp use_natpmp.
Proof.
  intros H. apply valid_flags_cases in H.
  destruct H as [-> | [-> | [-> | ->]]]; destruct use_upnp, use_natpmp;
    reflexivity.
Qed.

(** The state in which StartMapPort(a, b) can be at each control point. *)
Definition start_progress (a b : bool) (s : state) : Prop :=
  match caller s with
  | D_196 a' b' => a' = a /\ b' = b
  | D_197 b' =>
      b' = b /\
      exists e, valid_flags e = true /\
                g_mapport_enabled_protos s = MapPortProtoSetEnabled UPNP a e
  | D_203 true | D_204 true | D_205 true =>
      requested a b = 0 /\
      (g_mapport_enabled_protos s = 0 \/
       g_mapport_enabled_protos s = requested a b)
  | D_203 false | D_204 false | D_205 false => False
  | D_abort _ => True
  | _ => g_mapport_enabled_protos s = requested a b
  end.

Lemma start_progress_step a b s act s' :
  reachable s -> start_progress a b s -> is_call_action act = false ->
  step act s = Some s' -> start_progress a b s'.
Proof.
  unfold start_progress. intros Hr HP Ha H.
  pose proof (di_valid _ (reachable_inv s Hr)) as Hv.
  unfold step in H. destruct (aborted s); [discriminate H|].
  destruct act as [c| |x]; [discriminate Ha| |].
  - unfold caller_step in H.
    destruct (caller s) as [| | | | | | | | | | | | | | | | | | [] | [] | []
                            | | | ] eqn:Hd;
      try contradiction; try discriminate H;
      split_ifs H; try discriminate H; injection H as H; subst; simpl in *;
      repeat match goal with
      | E : (_ =? _) = true |- _ => apply Z.eqb_eq in E
      end;
      try solve [intuition congruence].
    + destruct HP as [-> ->]. split; [reflexivity|]. eauto.
    + destruct HP as (-> & e & He & ->). apply StartMapPort_updates. exact He.
  - destruct (worker_step_frame _ _ _ H) as (He & _ & _ & Hd & _).
    rewrite Hd, He. exact HP.
Qed.

(** X3: whenever a StartMapPort(a, b) call returns, however its steps were
    interleaved with the worker's and whichever branch of DispatchMapPort it
    took, the enabled set is exactly the requested one: UPNP iff a, NAT_PMP
    iff b, nothing else. *)
Theorem StartMapPort_sets_requested_protos s a b acts s' :
  reachable s -> caller s = D_idle -> same_call acts = true ->
  exec (A_call (Call_StartMapPort a b) :: acts) s = Some s' ->
  caller s' = D_idle ->
  g_mapport_enabled_protos s' = requested a b /\
  has_proto (g_mapport_enabled_protos s') UPNP = a /\
  has_proto (g_mapport_enabled_protos s') NAT_PMP = b.
Proof.
  intros Hr Hidle Hsame H Hend. simpl in H.
  destruct (step (A_call (Call_StartMapPort a b)) s) as [s1|] eqn:E;
    [|discriminate H].
  assert (HP : start_progress a b s1).
  { unfold step in E. destruct (aborted s); [discriminate E|].
    simpl in E. rewrite Hidle in E. injection E as <-.
    unfold start_progress. simpl. split; reflexivity. }
  assert (HP' : start_progress a b s').
  { apply (run_invariant (start_progress a b)) with (acts := acts) (s := s1);
      auto.
    - intros; eapply start_progress_step; eassumption.
    - eapply reach_step; eassumption. }
  unfold start_progress in HP'. rewrite Hend in HP'. rewrite HP'.
  destruct a, b; repeat split; reflexivity.
Qed.

(** X4: the enabled set only ever holds the two flags: in every reachable
    state its value is between 0 and 3. *)
Theorem enabled_protos_only_hold_the_flags s :
  reachable s -> 0 <= g_mapport_enabled_protos s <= 3.
Proof.
  intros Hr. pose proof (di_valid _ (reachable_inv s Hr)) as H.
  unfold valid_flags in H. apply andb_true_iff in H as [H0 H3].
  apply Z.leb_le in H0, H3. lia.
Qed.

(** ** The thread object and the token *)

(** X5: while no worker thread exists (the thread object is not joinable)
    the active protocol is NONE and, except between the join and the reset
    of StopMapPort, the token is un-signaled. *)
Theorem no_thread_means_idle_globals s :
  reachable s -> joinable s = false ->
  g_mapport_current_proto s = NONE /\
  (caller s <> D_213 -> g_mapport_interrupt s = false).
Proof.
  intros Hr Hj. pose proof (reachable_inv s Hr) as Hi. split.
  - apply (wi_none _ Hi). unfold joinable in Hj.
    destruct (g_mapport_thread s); [discriminate Hj | reflexivity].
  - intros Hd. apply (di_intr _ Hi Hj).
    destruct (caller s); try reflexivity. congruence.
Qed.

(** X6: the conditions asserted at lines 151 and 178 hold whenever control
    is there: at line 151 the token is un-signaled, at line 178 the thread
    is joinable; so neither assertion ever aborts the process. *)
Theorem assertions_151_178_never_fail s :
  reachable s ->
  (caller s = D_151 -> g_mapport_interrupt s = false) /\
  (caller s = D_178 -> joinable s = true) /\
  caller s <> D_abort Assert_151 /\ caller s <> D_abort Assert_178.
Proof.
  intros Hr. pose proof (reachable_inv s Hr) as Hi. repeat split.
  - intros Hd. apply (di_intr _ Hi).
    + apply (di_nothread _ Hi). rewrite Hd. reflexivity.
    + rewrite Hd. reflexivity.
  - intros Hd. apply (di_thread _ Hi). rewrite Hd. reflexivity.
  - apply (asserts_151_178_hold s Hr).
  - apply (asserts_151_178_hold s Hr).
Qed.

(** The number of threads spawned and not yet joined, read off the log of
    the control surface. *)
Fixpoint live_threads (t : list devent) : Z :=
  match t with
  | [] => 0
  | Dv_spawn :: older => live_threads older + 1
  | Dv_join :: older => live_threads older - 1
  | _ :: older => live_threads older
  end.

(** X7: at most one worker thread is alive: a thread is created only when
    none is joinable and joined only when one is, so spawns and joins
    alternate and the number of threads spawned and not yet joined is 1 when
    the thread object is joinable and 0 otherwise. *)
Theorem at_most_one_worker s :
  reachable s ->
  live_threads (dtrace s) = if joinable s then 1 else 0.
Proof.
  induction 1 as [|s a s' Hr IH H].
  - reflexivity.
  - destruct (reachable_inv s Hr) as [_ _ _ _ Ht Hnt _ _ _ _ _].
    unfold joinable in *.
    step_cases H; try destruct c; simpl in *; use_eqs; simpl in *;
      try exact IH.
    + specialize (Hnt eq_refl). rewrite Hnt in IH. rewrite IH. reflexivity.
    + specialize (Ht eq_refl). rewrite Ht in IH. rewrite IH. reflexivity.
Qed.

(** ** The decision table of DispatchMapPort, run without interference *)

(** X8: StartMapPort(a, b) entered while no protocol is active: if nothing
    is requested the call only records the (empty) enabled set; otherwise it
    makes sure a worker exists: it spawns one, started at the top of
    ThreadMapPort, when the thread is not joinable, and does nothing more
    when it is.  It never signals and never joins. *)
Theorem StartMapPort_when_idle s a b :
  reachable s -> caller s = D_idle -> g_mapport_current_proto s = NONE ->
  let c := Call_StartMapPort a b in
  let s1 := dlog (Dv_call c) (set_enabled (requested a b) s) in
  invoke c s =
    Some (if (requested a b =? 0) || joinable s then s1
          else dlog Dv_spawn (wgoto W_test_upnp s1)).
Proof.
  intros Hr Hd Hcur c s1. subst c s1.
  pose proof (reachable_inv s Hr) as Hi.
  pose proof (valid_flags_cases _ (di_valid _ Hi)) as Hv.
  pose proof (di_intr _ Hi) as Hint. rewrite Hd in Hint.
  unfold joinable in *.
  destruct s as [en cur it th d wt dt]. simpl in *. subst d cur.
  destruct th as [pc|].
  - destruct Hv as [-> | [-> | [-> | ->]]]; destruct a, b; reflexivity.
  - rewrite (Hint eq_refl eq_refl).
    destruct Hv as [-> | [-> | [-> | ->]]]; destruct a, b; reflexivity.
Qed.

(** X9: StartMapPort(a, b) entered while a protocol is active that the
    requested set, itself not empty, no longer contains: with the token
    un-signaled the call signals it and returns; it does not join and does
    not spawn, and the worker stays where it is.  With the token still
    signaled the call runs into the assertion of line 179. *)
Theorem StartMapPort_switches_protocol s a b :
  reachable s -> caller s = D_idle ->
  g_mapport_current_proto s <> NONE ->
  requested a b <> 0 ->
  has_proto (requested a b) (g_mapport_current_proto s) = false ->
  let c := Call_StartMapPort a b in
  let s1 := dlog (Dv_call c) (set_enabled (requested a b) s) in
  (g_mapport_interrupt s = false ->
   invoke c s = Some (dlog Dv_signal (set_interrupt true s1))) /\
  (g_mapport_interrupt s = true ->
   exec (A_call c :: repeat A_caller 10) s =
     Some (goto (D_abort Assert_179) s1)).
Proof.
  intros Hr Hd Hcur Hreq Hhas c s1. subst c s1.
  pose proof (reachable_inv s Hr) as Hi.
  pose proof (valid_flags_cases _ (di_valid _ Hi)) as Hv.
  assert (Hj : joinable s = true).
  { destruct (joinable s) eqn:Hj; [reflexivity|].
    destruct Hcur. apply (wi_none _ Hi). unfold joinable in Hj.
    destruct (g_mapport_thread s); [discriminate Hj | reflexivity]. }
  unfold joinable in Hj.
  destruct s as [en cur it th d wt dt]. simpl in *. subst d.
  destruct th as [pc|]; [|discriminate Hj].
  split; intros ->;
    destruct Hv as [-> | [-> | [-> | ->]]]; destruct a, b, cur;
    try congruence; try discriminate Hhas;
    try solve [exfalso; apply Hreq; reflexivity]; reflexivity.
Qed.

(** X10: StartThreadMapPort called directly is idempotent and safe: it
    spawns a worker at the top of ThreadMapPort exactly when the thread is
    not joinable, leaves everything as it is otherwise, and never trips its
    assertion. *)
Theorem StartThreadMapPort_is_lazy s :
  reachable s -> caller s = D_idle ->
  let s1 := dlog (Dv_call Call_StartThreadMapPort) s in
  invoke Call_StartThreadMapPort s =
    Some (if joinable s then s1 else dlog Dv_spawn (wgoto W_test_upnp s1)).
Proof.
  intros Hr Hd s1. subst s1.
  pose proof (di_intr _ (reachable_inv s Hr)) as Hint. rewrite Hd in Hint.
  unfold joinable in *.
  destruct s as [en cur it th d wt dt]. simpl in *. subst d.
  destruct th as [pc|]; [reflexivity|].
  rewrite (Hint eq_refl eq_refl). reflexivity.
Qed.

(** ** StopMapPort and the shutdown sequence *)

(** The state in which StopMapPort, entered from [s0], can be at each of
    its control points. *)
Definition stop_progress (s0 s : state) : Prop :=
  g_mapport_enabled_protos s = g_mapport_enabled_protos s0 /\
  match caller s with
  | D_211 =>
      joinable s = joinable s0 /\
      dtrace s = Dv_call Call_StopMapPort :: dtrace s0
  | D_212 =>
      joinable s = true /\ joinable s0 = true /\
      dtrace s = Dv_call Call_StopMapPort :: dtrace s0
  | D_213 =>
      joinable s = false /\ joinable s0 = true /\
      dtrace s = Dv_join :: Dv_call Call_StopMapPort :: dtrace s0
  | D_idle =>
      joinable s = false /\ g_mapport_interrupt s = false /\
      dtrace s =
        (if joinable s0 then [Dv_reset; Dv_join] else [])
          ++ Dv_call Call_StopMapPort :: dtrace s0
  | _ => False
  end.

Lemma stop_progress_step s0 s a s' :
  reachable s -> stop_progress s0 s -> is_call_action a = false ->
  step a s = Some s' -> stop_progress s0 s'.
Proof.
  unfold stop_progress. intros Hr [He HP] Ha H.
  pose proof (di_intr _ (reachable_inv s Hr)) as Hint.
  unfold step in H. destruct (aborted s); [discriminate H|].
  destruct a as [c| |x]; [discriminate Ha| |].
  - unfold caller_step in H.
    destruct (caller s) eqn:Hd; try contradiction; try discriminate H;
      split_ifs H; try discriminate H; injection H as H; subst;
      unfold joinable, worker_finished in *; simpl in *;
      destruct (g_mapport_thread s0), (g_mapport_thread s); simpl in *;
      try discriminate;
      try (specialize (Hint eq_refl eq_refl));
      intuition congruence.
  - destruct (worker_step_frame _ _ _ H) as (He' & Hj1 & Hj2 & Hd & Ht).
    rewrite Hd, He', Ht, Hj1. rewrite Hj2 in HP.
    split; [exact He|].
    destruct (caller s); try contradiction; try exact HP;
      destruct HP; discriminate.
Qed.

(** X11: StopMapPort, whenever it returns and however it was interleaved
    with the worker, has joined the worker and then reset the token if the
    thread was joinable, and has done nothing otherwise; on return no thread
    is joinable, the token is un-signaled and the active protocol is NONE.
    It never changes the enabled set (so nothing in it makes a running
    worker stop). *)
Theorem StopMapPort_joins_and_rearms s acts s' :
  reachable s -> caller s = D_idle -> same_call acts = true ->
  exec (A_call Call_StopMapPort :: acts) s = Some s' ->
  caller s' = D_idle ->
  joinable s' = false /\
  g_mapport_interrupt s' = false /\
  g_mapport_current_proto s' = NONE /\
  g_mapport_enabled_protos s' = g_mapport_enabled_protos s /\
  dtrace s' =
    (if joinable s then [Dv_reset; Dv_join] else [])
      ++ Dv_call Call_StopMapPort :: dtrace s.
Proof.
  intros Hr Hidle Hsame H Hend.
  pose proof (exec_reachable _ _ _ Hr H) as Hr'.
  simpl in H.
  destruct (step (A_call Call_StopMapPort) s) as [s1|] eqn:E;
    [|discriminate H].
  assert (HP : stop_progress s s1).
  { unfold step in E. destruct (aborted s); [discriminate E|].
    simpl in E. rewrite Hidle in E. injection E as <-.
    unfold stop_progress. simpl. repeat split; reflexivity. }
  assert (HP' : stop_progress s s').
  { apply (run_invariant (stop_progress s)) with (acts := acts) (s := s1);
      auto.
    - intros; eapply stop_progress_step; eassumption.
    - exact (reach_step s _ s1 Hr E). }
  destruct HP' as [He HP']. rewrite Hend in HP'.
  destruct HP' as (Hj & Hint & Hdt).
  repeat split; auto.
  apply (wi_none _ (reachable_inv s' Hr')). unfold joinable in Hj.
  destruct (g_mapport_thread s'); [discriminate Hj | reflexivity].
Qed.

(** The enabled set is empty and a worker, if there is one, is winding
    down. *)
Definition wound_down (s : state) : Prop :=
  g_mapport_enabled_protos s = 0 /\ (joinable s = true -> draining s).

Lemma wound_down_worker_step x s s' :
  wound_down s -> worker_step x s = Some s' -> wound_down s'.
Proof.
  intros [He Hd] H.
  destruct (worker_step_frame _ _ _ H) as (He' & _ & Hj & _).
  split; [congruence|]. intros _.
  apply (draining_step _ _ _ (Hd Hj) H).
Qed.

(** InterruptMapPort, control point by control point. *)
Definition interrupt_winds_down (s : state) : Prop :=
  match caller s with
  | D_203 false => True
  | D_204 false | D_205 false => g_mapport_enabled_protos s = 0
  | D_idle => wound_down s
  | _ => False
  end.

Lemma interrupt_winds_down_step s a s' :
  interrupt_winds_down s -> is_call_action a = false ->
  step a s = Some s' -> interrupt_winds_down s'.
Proof.
  unfold interrupt_winds_down. intros HP Ha H.
  unfold step in H. destruct (aborted s); [discriminate H|].
  destruct a as [c| |x]; [discriminate Ha| |].
  - unfold caller_step in H.
    destruct (caller s) as [| | | | | | | | | | | | | | | | | | [] | [] | []
                            | | | ] eqn:Hd;
      try contradiction; try discriminate H;
      split_ifs H; try discriminate H; injection H as H; subst;
      unfold wound_down, draining, joinable in *; simpl in *;
      try (destruct (g_mapport_thread s); try discriminate);
      intuition congruence.
  - destruct (worker_step_frame _ _ _ H) as (He' & _ & _ & Hd & _).
    rewrite Hd.
    destruct (caller s) as [| | | | | | | | | | | | | | | | | | [] | [] | []
                            | | | ];
      try contradiction; try congruence.
    eapply wound_down_worker_step; eassumption.
Qed.

(** StopMapPort entered with the worker winding down. *)
Definition stop_winds_down (s : state) : Prop :=
  match caller s with
  | D_211 => wound_down s
  | D_212 => joinable s = true /\ draining s
  | D_213 => joinable s = false /\ g_mapport_enabled_protos s = 0
  | D_idle =>
      joinable s = false /\ g_mapport_enabled_protos s = 0 /\
      g_mapport_interrupt s = false
  | _ => False
  end.

Lemma stop_winds_down_step s a s' :
  reachable s -> stop_winds_down s -> is_call_action a = false ->
  step a s = Some s' -> stop_winds_down s'.
Proof.
  unfold stop_winds_down. intros Hr HP Ha H.
  pose proof (di_intr _ (reachable_inv s Hr)) as Hint.
  unfold step in H. destruct (aborted s); [discriminate H|].
  destruct a as [c| |x]; [discriminate Ha| |].
  - unfold caller_step in H.
    destruct (caller s) eqn:Hd; try contradiction; try discriminate H;
      split_ifs H; try discriminate H; injection H as H; subst;
      unfold wound_down, draining, joinable, worker_finished in *;
      simpl in *;
      destruct (g_mapport_thread s); simpl in *; try discriminate;
      try (specialize (Hint eq_refl eq_refl));
      intuition congruence.
  - destruct (worker_step_frame _ _ _ H) as (He' & Hj1 & Hj2 & Hd & _).
    rewrite Hd, He', Hj1. rewrite Hj2 in HP.
    destruct (caller s); try contradiction;
      try (eapply wound_down_worker_step; eassumption);
      try (destruct HP as [_ Hdr]; split;
           [reflexivity | apply (draining_step _ _ _ Hdr H)]);
      destruct HP; discriminate.
Qed.

(** X12: the shutdown sequence InterruptMapPort(); StopMapPort() cannot
    hang in join and leaves everything idle: once StopMapPort waits in join
    the worker returns within 13 of its own steps whatever its external
    calls answer, after which the join can proceed; StopMapPort is blocked
    nowhere else; and when it returns the enabled set is empty, no thread is
    joinable, the token is un-signaled and the active protocol is NONE. *)
Theorem shutdown_sequence_terminates s acts1 s1 acts2 s2 :
  reachable s -> caller s = D_idle ->
  same_call acts1 = true ->
  exec (A_call Call_InterruptMapPort :: acts1) s = Some s1 ->
  caller s1 = D_idle ->
  same_call acts2 = true ->
  exec (A_call Call_StopMapPort :: acts2) s1 = Some s2 ->
  (caller s2 = D_212 ->
   forall xs, (13 <= length xs)%nat ->
   worker_finished (worker_run xs s2) = true /\
   exists s3, step A_caller (worker_run xs s2) = Some s3) /\
  (caller s2 <> D_idle -> caller s2 <> D_212 ->
   exists s3, step A_caller s2 = Some s3) /\
  (caller s2 = D_idle ->
   g_mapport_enabled_protos s2 = 0 /\ joinable s2 = false /\
   g_mapport_interrupt s2 = false /\ g_mapport_current_proto s2 = NONE).
Proof.
  intros Hr Hidle Hsame1 H1 Hidle1 Hsame2 H2.
  pose proof (exec_reachable _ _ _ Hr H1) as Hr1.
  pose proof (exec_reachable _ _ _ Hr1 H2) as Hr2.
  (* first call *)
  simpl in H1.
  destruct (step (A_call Call_InterruptMapPort) s) as [sa|] eqn:Ea;
    [|discriminate H1].
  assert (Hwa : interrupt_winds_down sa).
  { unfold step in Ea. destruct (aborted s); [discriminate Ea|].
    simpl in Ea. rewrite Hidle in Ea. injection Ea as <-. exact I. }
  assert (Hw1 : interrupt_winds_down s1).
  { apply (run_invariant interrupt_winds_down) with (acts := acts1) (s := sa);
      auto.
    - intros; eapply interrupt_winds_down_step; eassumption.
    - exact (reach_step s _ sa Hr Ea). }
  unfold interrupt_winds_down in Hw1. rewrite Hidle1 in Hw1.
  (* second call *)
  simpl in H2.
  destruct (step (A_call Call_StopMapPort) s1) as [sb|] eqn:Eb;
    [|discriminate H2].
  assert (Hwb : stop_winds_down sb).
  { unfold step in Eb. destruct (aborted s1); [discriminate Eb|].
    simpl in Eb. rewrite Hidle1 in Eb. injection Eb as <-. exact Hw1. }
  assert (Hw2 : stop_winds_down s2).
  { apply (run_invariant stop_winds_down) with (acts := acts2) (s := sb);
      auto.
    - intros; eapply stop_winds_down_step; eassumption.
    - exact (reach_step s1 _ sb Hr1 Eb). }
  unfold stop_winds_down in Hw2. split; [|split].
  - intros Hend xs Hlen. rewrite Hend in Hw2. destruct Hw2 as (Hj & Hdr).
    assert (Hf : worker_finished (worker_run xs s2) = true).
    { apply draining_worker_finishes; auto.
      pose proof (steps_left_bound (g_mapport_thread s2)). lia. }
    split; [exact Hf|].
    destruct (worker_run_frame xs s2) as (Hc & _ & _).
    unfold step, aborted, caller_step. rewrite Hc, Hend, Hf. eauto.
  - intros Hn1 Hn2. unfold step, aborted, caller_step.
    destruct (caller s2); try contradiction; try congruence;
      repeat match goal with
      | |- context [if ?b then _ else _] => destruct b
      end; eauto.
  - intros Hend. rewrite Hend in Hw2. destruct Hw2 as (Hj & He & Hint).
    repeat split; auto.
    apply (wi_none _ (reachable_inv s2 Hr2)). unfold joinable in Hj.
    destruct (g_mapport_thread s2); [discriminate Hj | reflexivity].
Qed.

(** ** The worker on its own *)

(** X13: a step of the worker (ThreadMapPort, ProcessUpnp) never signals the
    token (it can only clear it), never writes the enabled set, and leaves
    the thread joinable; the worker's log only grows. *)
Theorem worker_only_clears_token x s s' :
  worker_step x s = Some s' ->
  (g_mapport_interrupt s' = true -> g_mapport_interrupt s = true) /\
  g_mapport_enabled_protos s' = g_mapport_enabled_protos s /\
  joinable s' = true /\
  (wtrace s' = wtrace s \/ exists ev, wtrace s' = ev :: wtrace s).
Proof.
  unfold worker_step, joinable. intros H.
  destruct (g_mapport_thread s) as [[]|] eqn:?; try discriminate H;
    unfold ThreadMapPort, ProcessUpnp, ProcessNatpmp, after_upnp in H;
    repeat match type of H with
    | context [match ?u with U_discover => _ | _ => _ end] => destruct u
    end;
    split_ifs H; injection H as H; subst; simpl;
    repeat split; auto; try discriminate; eauto.
Qed.

(** Control points inside ProcessUpnp past an interrupted wait. *)
Definition returning_true (t : option wpc) : bool :=
  match t with
  | Some (W_upnp (U_reset true)) | Some (W_upnp (U_return true)) => true
  | _ => false
  end.

Lemma uninterrupted_step x s s' :
  g_mapport_interrupt s = false ->
  returning_true (g_mapport_thread s) = false ->
  worker_step x s = Some s' ->
  g_mapport_interrupt s' = false /\
  returning_true (g_mapport_thread s') = false /\
  (wtrace s' = wtrace s \/
   exists ev, wtrace s' = ev :: wtrace s /\ ev <> Ev_upnp_ret true).
Proof.
  unfold worker_step, sleep_for. intros Hi Hp H.
  destruct (g_mapport_thread s) as [[]|] eqn:?; try discriminate H;
    unfold ThreadMapPort, ProcessUpnp, ProcessNatpmp, after_upnp, sleep_for
      in H;
    rewrite ?Hi in H; simpl in H;
    repeat match type of H with
    | context [match ?u with U_discover => _ | _ => _ end] => destruct u
    end;
    split_ifs H; try discriminate Hp; injection H as H; subst; simpl;
    repeat split; auto;
    try (left; reflexivity);
    (right; eexists; split; [reflexivity | discriminate]).
Qed.

(** X14: ProcessUpnp returns true only when its re-announce wait was
    interrupted: as long as the token is not signaled (the worker running
    on its own from a state with the token un-signaled), no call of
    ProcessUpnp returns true; it keeps the mapping or returns false. *)
Theorem ProcessUpnp_true_needs_interrupt xs : forall s,
  g_mapport_interrupt s = false ->
  returning_true (g_mapport_thread s) = false ->
  g_mapport_interrupt (worker_run xs s) = false /\
  exists newer,
    wtrace (worker_run xs s) = newer ++ wtrace s /\
    ~ In (Ev_upnp_ret true) newer.
Proof.
  induction xs as [|x xs IH]; simpl; intros s Hi Hp.
  - split; [exact Hi|]. exists []. split; [reflexivity | intros []].
  - destruct (worker_step x s) as [s'|] eqn:E.
    + destruct (uninterrupted_step _ _ _ Hi Hp E) as (Hi' & Hp' & Hw).
      destruct (IH s' Hi' Hp') as (Hi2 & newer & Hn & Hno).
      split; [exact Hi2|].
      destruct Hw as [Hw | (ev & Hw & Hev)]; rewrite Hw in Hn.
      * exists newer. split; assumption.
      * exists (newer ++ [ev]). split.
        -- rewrite <- app_assoc. exact Hn.
        -- intros Hin. apply in_app_or in Hin as [Hin | [Hin | []]];
             [exact (Hno Hin) | exact (Hev Hin)].
    + split; [exact Hi|]. exists []. split; [reflexivity | intros []].
Qed.

(** X15: in a build without USE_NATPMP the worker never loads the enabled
    set at line 133, never stores NAT_PMP as the active protocol and never
    calls ProcessNatpmp, whatever the enabled set holds. *)
Theorem build_without_natpmp_never_uses_it s :
  USE_NATPMP = false -> reachable s ->
  (forall e, ~ In (Ev_read L133 e) (wtrace s)) /\
  ~ In (Ev_publish NAT_PMP) (wtrace s) /\
  ~ In Ev_natpmp_call (wtrace s) /\
  g_mapport_current_proto s <> NAT_PMP.
Proof.
  intros Hb Hr. pose proof (reachable_inv s Hr) as Hi.
  pose proof (wi_chain _ Hi) as Hc.
  assert (H133 : forall e, ~ In (Ev_read L133 e) (wtrace s)).
  { intros e Hin. apply in_split in Hin as (newer & older & Ht).
    rewrite Ht in Hc. apply wchain_app in Hc.
    apply wchain_cons in Hc as [Hn _]. simpl in Hn.
    rewrite Hb in Hn. discriminate Hn. }
  assert (Hpub : ~ In (Ev_publish NAT_PMP) (wtrace s)).
  { intros Hin. apply in_split in Hin as (newer & older & Ht).
    pose proof Hc as Hc'. rewrite Ht in Hc'. apply wchain_app in Hc'.
    back Hc'. apply (H133 e). rewrite Ht. in_log. }
  repeat split; auto.
  - intros Hin. apply in_split in Hin as (newer & older & Ht).
    pose proof Hc as Hc'. rewrite Ht in Hc'. apply wchain_app in Hc'.
    back Hc'. apply Hpub. rewrite Ht. in_log.
  - intros Hcur. pose proof (wi_cur _ Hi) as Hl. rewrite Hcur in Hl.
    symmetry in Hl.
    destruct (last_publish_split _ _ Hl) as (newer & older & Ht & _);
      [discriminate|].
    apply Hpub. rewrite Ht. in_log.
Qed.

(** X16: every return of ProcessNatpmp is followed as lines 135-140 say: a
    return of true by the line 124 load of the next iteration (UPnP is
    reconsidered first, with no wait), a return of false by the store of
    NONE into the active protocol. *)
Theorem after_natpmp_returns s :
  reachable s ->
  (forall newer y older,
     wtrace s = newer ++ y :: Ev_natpmp_ret true :: older ->
     exists e, y = Ev_read L124 e) /\
  (forall newer y older,
     wtrace s = newer ++ y :: Ev_natpmp_ret false :: older ->
     y = Ev_publish NONE).
Proof.
  intros Hr. pose proof (wi_chain _ (reachable_inv s Hr)) as Hc.
  split; intros newer y older Ht; rewrite Ht in Hc;
    apply wchain_pair in Hc; fwd Hc y; eauto.
Qed.

Lemma worker_run_cons x xs s s' :
  worker_step x s = Some s' -> worker_run (x :: xs) s = worker_run xs s'.
Proof. intros H. simpl. rewrite H. reflexivity. Qed.

(** X17: what the interrupt of line 182 is for (lines 180-181): a worker
    holding a UPnP mapping (in the re-announce wait of line 99) that finds
    the token signaled, UPnP no longer enabled and NAT-PMP enabled leaves
    ProcessUpnp with the token reset and the result true, starts a new
    iteration without waiting, and goes on to select NAT-PMP and call
    ProcessNatpmp: eight steps, none of them a wait. *)
Theorem interrupt_forces_next_protocol s xs :
  USE_NATPMP = true ->
  g_mapport_thread s = Some (W_upnp U_sleep) ->
  g_mapport_interrupt s = true ->
  has_proto (g_mapport_enabled_protos s) UPNP = false ->
  has_proto (g_mapport_enabled_protos s) NAT_PMP = true ->
  length xs = 8%nat ->
  g_mapport_thread (worker_run xs s) = Some W_natpmp_body /\
  g_mapport_current_proto (worker_run xs s) = NAT_PMP /\
  g_mapport_interrupt (worker_run xs s) = false /\
  wtrace (worker_run xs s) =
    [Ev_natpmp_call; Ev_publish NAT_PMP;
     Ev_read L133 (g_mapport_enabled_protos s);
     Ev_read L124 (g_mapport_enabled_protos s); Ev_upnp_ret true]
      ++ wtrace s.
Proof.
  intros Hb Hpc Hi Hu Hn Hlen.
  destruct xs as [|x1 [|x2 [|x3 [|x4 [|x5 [|x6 [|x7 [|x8 [|]]]]]]]]];
    try discriminate Hlen.
  destruct s as [en cur it th d wt dt]. simpl in Hpc, Hi, Hu, Hn. subst th it.
  cbn [g_mapport_enabled_protos wtrace].
  do 8 (erewrite worker_run_cons
          by (unfold worker_step, ThreadMapPort, ProcessUpnp, after_upnp,
                sleep_for; cbn; rewrite ?Hb, ?Hu, ?Hn; reflexivity);
        cbn [wlog wgoto set_thread set_interrupt set_current
             g_mapport_enabled_protos g_mapport_current_proto
             g_mapport_interrupt g_mapport_thread caller wtrace dtrace]).
  simpl. rewrite ?Hb. repeat split; reflexivity.
Qed.

(** X18: a worker that starts an iteration with the enabled set empty, and
    is not interfered with, calls no protocol client: it stores NONE and
    returns from ThreadMapPort within five steps (lines 140-143). *)
Theorem worker_with_nothing_enabled_returns s xs :
  g_mapport_thread s = Some W_test_upnp ->
  g_mapport_enabled_protos s = 0 ->
  (5 <= length xs)%nat ->
  worker_finished (worker_run xs s) = true /\
  g_mapport_current_proto (worker_run xs s) = NONE /\
  wtrace (worker_run xs s) =
    [Ev_return; Ev_read L141 0; Ev_publish NONE]
      ++ (if USE_NATPMP then [Ev_read L133 0] else [])
      ++ Ev_read L124 0 :: wtrace s.
Proof.
  intros Hpc He Hlen.
  destruct s as [en cur it th d wt dt]. simpl in Hpc, He. subst th en.
  unfold worker_finished.
  destruct USE_NATPMP eqn:Hb.
  - destruct xs as [|x1 [|x2 [|x3 [|x4 [|x5 [|x6 xs]]]]]];
      simpl in Hlen; try lia;
      unfold worker_run, worker_step, ThreadMapPort, after_upnp;
      simpl; rewrite Hb; simpl; repeat split; reflexivity.
  - destruct xs as [|x1 [|x2 [|x3 [|x4 [|x5 xs]]]]];
      simpl in Hlen; try lia;
      unfold worker_run, worker_step, ThreadMapPort, after_upnp;
      simpl; rewrite Hb; simpl;
      try (destruct xs; simpl); repeat split; reflexivity.
Qed.

(** Control points of an iteration that attempts no protocol. *)
Definition idling (t : option wpc) : bool :=
  match t with
  | Some W_test_upnp | Some W_set_none | Some W_test_none
  | Some (W_cond false) => true
  | _ => false
  end.

Lemma idling_step x s s' :
  USE_NATPMP = false ->
  g_mapport_interrupt s = false ->
  has_proto (g_mapport_enabled_protos s) UPNP = false ->
  g_mapport_enabled_protos s <> 0 ->
  idling (g_mapport_thread s) = true ->
  worker_step x s = Some s' ->
  g_mapport_interrupt s' = false /\
  g_mapport_enabled_protos s' = g_mapport_enabled_protos s /\
  idling (g_mapport_thread s') = true /\
  (g_mapport_current_proto s' = g_mapport_current_proto s \/
   g_mapport_current_proto s' = NONE).
Proof.
  unfold worker_step, sleep_for. intros Hb Hi Hu He Hp H.
  apply Z.eqb_neq in He.
  destruct (g_mapport_thread s) as [[| | | | | | | | | | |[]| |]|] eqn:?;
    try discriminate Hp;
    unfold ThreadMapPort, after_upnp, sleep_for in H;
    simpl in H; rewrite ?Hb, ?Hu, ?He, ?Hi in H; simpl in H;
    injection H as H; subst; simpl; auto.
Qed.

(** X19: the fall-through of lines 140-145 when the only protocol enabled is
    one this build does not have (no USE_NATPMP, UPNP not enabled, enabled
    set not empty): left alone with the token un-signaled, the worker goes
    round storing NONE and waiting out the retry period; it never calls a
    protocol client and never returns. *)
Theorem unsupported_protocol_is_retried_forever xs : forall s,
  USE_NATPMP = false ->
  g_mapport_interrupt s = false ->
  has_proto (g_mapport_enabled_protos s) UPNP = false ->
  g_mapport_enabled_protos s <> 0 ->
  idling (g_mapport_thread s) = true ->
  idling (g_mapport_thread (worker_run xs s)) = true /\
  worker_finished (worker_run xs s) = false /\
  (g_mapport_current_proto (worker_run xs s) = g_mapport_current_proto s \/
   g_mapport_current_proto (worker_run xs s) = NONE).
Proof.
  assert (Hnf : forall s, idling (g_mapport_thread s) = true ->
                          worker_finished s = false).
  { intros s. unfold worker_finished.
    destruct (g_mapport_thread s) as [[]|]; simpl; congruence. }
  induction xs as [|x xs IH]; simpl; intros s Hb Hi Hu He Hp.
  - auto.
  - destruct (worker_step x s) as [s'|] eqn:E; [|auto].
    destruct (idling_step _ _ _ Hb Hi Hu He Hp E) as (Hi' & He' & Hp' & Hc).
    rewrite <- He' in Hu, He.
    destruct (IH s' Hb Hi' Hu He Hp') as (H1 & H2 & H3).
    repeat split; auto.
    destruct H3 as [H3|H3]; [rewrite H3; exact Hc | right; exact H3].
Qed.

End Build.

(** * Concrete executions *)

Definition caller_steps (n : nat) : list action := repeat A_caller n.

Definition worker_steps (xs : list bool) : list action := map A_worker xs.

(** The final state of a run from [init] ([init] itself if the run is not
    executable). *)
Definition final (use_natpmp : bool) (acts : list action) : state :=
  match exec use_natpmp acts init with
  | Some s => s
  | None => init
  end.

(** StartMapPort(true, false) spawns the worker, which selects UPnP and
    enters ProcessUpnp. *)
Definition run_upnp_active : list action :=
  A_call (Call_StartMapPort true false) :: caller_steps 9
    ++ worker_steps [true; true; true].

(** ... then discovery finds no gateway, NAT-PMP is not enabled, and the
    worker reaches the retry wait of line 145. *)
Definition run_upnp_failed : list action :=
  run_upnp_active ++ worker_steps [false; false; false; false; false].

(** ... the wait elapses and the next iteration calls ProcessUpnp again. *)
Definition run_upnp_retried : list action :=
  run_upnp_failed ++ worker_steps [true; true; true; true].

(** ... or InterruptMapPort is called during the wait. *)
Definition run_wait_interrupted : list action :=
  run_upnp_failed
    ++ A_call Call_InterruptMapPort :: caller_steps 3
    ++ worker_steps [true; true].


(** The operator switches from UPnP to NAT-PMP while ProcessUpnp is still
    discovering; discovery then fails, and so does ProcessNatpmp, without
    touching the token. *)
Definition run_switch_during_discovery : list action :=
  run_upnp_active
    ++ A_call (Call_StartMapPort false true) :: caller_steps 11.

Definition run_switch_then_fail : list action :=
  run_switch_during_discovery
    ++ worker_steps [false; false; false; false; false; false; false;
                     false; false; false; false].

(** The same request repeated before the worker has noticed the first. *)
Definition run_switch_twice : list action :=
  run_switch_during_discovery
    ++ A_call (Call_StartMapPort false true) :: caller_steps 10.

(** Both protocols enabled; UPnP discovery fails. *)
Definition run_fallback : list action :=
  A_call (Call_StartMapPort true true) :: caller_steps 9
    ++ worker_steps [true; true; true; false; false; true; true; true].

(** Enabled and disabled again before the worker has looked. *)
Definition run_idle_exit : list action :=
  A_call (Call_StartMapPort true false) :: caller_steps 9
    ++ A_call (Call_StartMapPort false false) :: caller_steps 4
    ++ worker_steps [true; true; true; true; true].

(** ProcessUpnp holds a mapping; InterruptMapPort and a renewed
    StartMapPort(true, false) make it return true. *)
Definition run_upnp_renewed : list action :=
  run_upnp_active ++ worker_steps [true; true]
    ++ A_call Call_InterruptMapPort :: caller_steps 3
    ++ A_call (Call_StartMapPort true false) :: caller_steps 8
    ++ worker_steps [true; true; true; true; true; true; true].

(** configure(false, false) while UPnP is active, up to the line 167 load
    of the enabled set. *)
Definition run_disable_active : list action :=
  run_upnp_active
    ++ A_call (Call_StartMapPort false false) :: caller_steps 5.

(** configure(true, true) while UPnP is active, up to line 173. *)
Definition run_enable_more : list action :=
  run_upnp_active
    ++ A_call (Call_StartMapPort true true) :: caller_steps 7.

Definition runs (use_natpmp : bool) (acts : list action) : bool :=
  match exec use_natpmp acts init with
  | Some _ => true
  | None => false
  end.

Lemma final_reachable use_natpmp acts :
  runs use_natpmp acts = true -> reachable use_natpmp (final use_natpmp acts).
Proof.
  unfold runs, final. intros H.
  destruct (exec use_natpmp acts init) as [s|] eqn:E; [|discriminate H].
  apply (exec_reachable use_natpmp acts init s); [constructor | exact E].
Qed.

(** ** C1 *)

Lemma current_proto_was_observed_enabled_witness :
  reachable true (final true run_upnp_active) /\
  g_mapport_current_proto (final true run_upnp_active) = UPNP /\
  forall newer p older,
    wtrace (final true run_upnp_active) = newer ++ Ev_publish p :: older ->
    p <> NONE ->
    exists l e older', older = Ev_read l e :: older' /\ has_proto e p = true.
Proof.
  split; [apply final_reachable; reflexivity|].
  split; [reflexivity|].
  apply (current_proto_was_observed_enabled true (final true run_upnp_active)).
  apply final_reachable; reflexivity.
Defined.

(** ** C2 *)

Lemma upnp_has_priority_witness :
  reachable true (final true run_upnp_renewed) /\
  wtrace (final true run_upnp_renewed) =
    [Ev_upnp_call; Ev_publish UPNP; Ev_read L124 1; Ev_upnp_ret true;
     Ev_upnp_call; Ev_publish UPNP; Ev_read L124 1] /\
  ((forall e, In (Ev_read L124 e) (wtrace (final true run_upnp_renewed)) ->
              has_proto e UPNP = true) ->
   (forall ok, In (Ev_upnp_ret ok) (wtrace (final true run_upnp_renewed)) ->
               ok = true) ->
   ~ In Ev_natpmp_call (wtrace (final true run_upnp_renewed)) /\
   forall b, ~ In (Ev_wait b) (wtrace (final true run_upnp_renewed))).
Proof.
  split; [apply final_reachable; reflexivity|].
  split; [reflexivity|].
  apply (upnp_has_priority true (final true run_upnp_renewed)).
  apply final_reachable; reflexivity.
Defined.

(** ** C10 *)


(** ** C4 *)

(** C4 fails as stated: with both protocols enabled, a failed ProcessUpnp is
    followed in the same iteration by the NAT-PMP attempt; no wait lies
    between the failure and the next negotiation call. *)
Lemma fallback_attempt_without_wait :
  runs true run_fallback = true /\
  wtrace (final true run_fallback) =
    [Ev_natpmp_call; Ev_publish NAT_PMP; Ev_read L133 3; Ev_upnp_ret false;
     Ev_upnp_call; Ev_publish UPNP; Ev_read L124 3].
Proof. split; reflexivity. Qed.

Lemma after_failed_negotiation_witness :
  reachable true (final true run_upnp_retried) /\
  wtrace (final true run_upnp_retried) =
    [] ++ Ev_upnp_call
       :: [Ev_publish UPNP; Ev_read L124 1; Ev_wait true; Ev_read L141 1;
           Ev_publish NONE; Ev_read L133 1]
       ++ Ev_upnp_ret false :: [Ev_upnp_call; Ev_publish UPNP; Ev_read L124 1]
  /\
  (In (Ev_wait true)
      [Ev_publish UPNP; Ev_read L124 1; Ev_wait true; Ev_read L141 1;
       Ev_publish NONE; Ev_read L133 1] \/
   In Ev_return
      [Ev_publish UPNP; Ev_read L124 1; Ev_wait true; Ev_read L141 1;
       Ev_publish NONE; Ev_read L133 1] \/
   (Ev_upnp_ret false = Ev_upnp_ret false /\ Ev_upnp_call = Ev_natpmp_call /\
    exists e,
      [Ev_publish UPNP; Ev_read L124 1; Ev_wait true; Ev_read L141 1;
       Ev_publish NONE; Ev_read L133 1] = [Ev_publish NAT_PMP; Ev_read L133 e]
      /\ has_proto e NAT_PMP = true)).
Proof.
  split; [apply final_reachable; reflexivity|].
  split; [reflexivity|].
  apply (after_failed_negotiation true (final true run_upnp_retried))
    with (newer := [])
         (older := [Ev_upnp_call; Ev_publish UPNP; Ev_read L124 1]).
  - apply final_reachable; reflexivity.
  - reflexivity.
  - reflexivity.
  - reflexivity.
  - simpl. intros x H.
    repeat (destruct H as [<- | H]; [reflexivity|]). destruct H.
Defined.

(** ** C5 *)

(** C5 fails as stated: an interrupted retry wait is followed by the return
    of ThreadMapPort, not by another iteration. *)
Lemma interrupted_retry_wait_ends_worker :
  runs true run_wait_interrupted = true /\
  wtrace (final true run_wait_interrupted) =
    [Ev_return; Ev_wait false; Ev_read L141 1; Ev_publish NONE;
     Ev_read L133 1; Ev_upnp_ret false; Ev_upnp_call; Ev_publish UPNP;
     Ev_read L124 1] /\
  g_mapport_thread (final true run_wait_interrupted) = Some W_done.
Proof. repeat split; reflexivity. Qed.

Lemma retry_wait_outcome_witness :
  reachable true (final true run_upnp_retried) /\
  forall newer y older,
    wtrace (final true run_upnp_retried) =
      newer ++ y :: Ev_wait true :: older ->
    exists e, y = Ev_read L124 e.
Proof.
  split; [apply final_reachable; reflexivity|].
  apply (retry_wait_outcome true (final true run_upnp_retried)).
  apply final_reachable; reflexivity.
Defined.

(** ** C7 *)



(** ** C3 *)

(** UPnP enabled, the worker spawned, no call in flight. *)
Definition run_upnp_enabled : list action :=
  A_call (Call_StartMapPort true false) :: caller_steps 9.

Definition st_upnp_enabled : state :=
  Eval vm_compute in final true run_upnp_enabled.

Definition st_interrupted : state :=
  Eval vm_compute in
    final true (run_upnp_enabled
                  ++ A_call Call_InterruptMapPort :: caller_steps 3).

(** C3 fails as stated: InterruptMapPort turns an enabled set holding UPNP
    into NONE. *)
Lemma InterruptMapPort_changes_enabled_protos :
  exec true run_upnp_enabled init = Some st_upnp_enabled /\
  g_mapport_enabled_protos st_upnp_enabled = 1 /\
  invoke true Call_InterruptMapPort st_upnp_enabled = Some st_interrupted /\
  g_mapport_enabled_protos st_interrupted = 0.
Proof. repeat split; vm_compute; reflexivity. Qed.

Lemma InterruptMapPort_clears_enabled_protos_witness :
  reachable true st_upnp_enabled /\
  g_mapport_enabled_protos st_upnp_enabled = 1 /\
  g_mapport_enabled_protos st_interrupted = 0 /\
  dtrace st_interrupted =
    [Dv_signal] ++ Dv_call Call_InterruptMapPort :: dtrace st_upnp_enabled.
Proof.
  assert (Hr : reachable true st_upnp_enabled).
  { apply (exec_reachable true run_upnp_enabled init);
      [constructor | vm_compute; reflexivity]. }
  split; [exact Hr|]. split; [reflexivity|].
  destruct (InterruptMapPort_clears_enabled_protos true
              st_upnp_enabled (caller_steps 3) st_interrupted)
    as (H1 & _ & H2);
    [exact Hr | reflexivity | reflexivity | vm_compute; reflexivity
    | reflexivity |].
  split; [exact H1 | exact H2].
Defined.

(** ** C6 *)

Definition run_disable_completed : list action :=
  caller_steps 5
    ++ worker_steps [false; false; false; false; false; false]
    ++ caller_steps 2.

Definition st_disable_active : state :=
  Eval vm_compute in final true run_disable_active.

Definition st_disabled : state :=
  Eval vm_compute in
    final true (run_disable_active ++ run_disable_completed).

Lemma disable_all_interrupts_joins_resets_witness :
  reachable true st_disable_active /\
  caller st_disable_active = D_167_en /\
  g_mapport_current_proto st_disable_active = UPNP /\
  g_mapport_enabled_protos st_disable_active = 0 /\
  exec true run_disable_completed st_disable_active = Some st_disabled /\
  dtrace st_disabled =
    Dv_reset :: Dv_join :: Dv_signal :: dtrace st_disable_active /\
  joinable st_disabled = false /\
  g_mapport_interrupt st_disabled = false.
Proof.
  assert (Hr : reachable true st_disable_active).
  { apply (exec_reachable true run_disable_active init);
      [constructor | vm_compute; reflexivity]. }
  assert (He : exec true run_disable_completed st_disable_active
               = Some st_disabled) by (vm_compute; reflexivity).
  split; [exact Hr|]. do 3 (split; [reflexivity|]). split; [exact He|].
  destruct (disable_all_interrupts_joins_resets true
              st_disable_active run_disable_completed st_disabled)
    as (H & _);
    [exact Hr | reflexivity | reflexivity | reflexivity | exact He |].
  destruct (H eq_refl) as (H1 & _ & H2 & H3).
  split; [exact H1 | split; [exact H2 | exact H3]].
Defined.

(** ** C8 *)

Definition st_enable_more : state :=
  Eval vm_compute in final true run_enable_more.

Lemma still_enabled_protocol_is_left_alone_witness :
  reachable true st_enable_more /\
  caller st_enable_more = D_173_cur 3 /\
  has_proto 3 (g_mapport_current_proto st_enable_more) = true /\
  step true A_caller st_enable_more = Some (goto D_idle st_enable_more).
Proof.
  assert (Hr : reachable true st_enable_more).
  { apply (exec_reachable true run_enable_more init);
      [constructor | vm_compute; reflexivity]. }
  split; [exact Hr|]. split; [reflexivity|]. split; [reflexivity|].
  apply (proj1 (still_enabled_protocol_is_left_alone true st_enable_more Hr)
               3 eq_refl eq_refl).
Defined.

(** ** C9 *)

Definition st_switch_twice : state :=
  Eval vm_compute in final true run_switch_twice.

(** C9: the assertion of line 179 can fail under serialized calls: a second
    StartMapPort(false, true) issued while the worker is still inside
    ProcessUpnp's discovery, and so has not yet re-armed the token signaled
    by the first, reaches line 179 with the token signaled.  This holds in
    either build. *)
Theorem repeated_switch_request_fails_assert_179 :
  exec true run_switch_twice init = Some st_switch_twice /\
  exec false run_switch_twice init = Some st_switch_twice /\
  caller st_switch_twice = D_abort Assert_179 /\
  g_mapport_interrupt st_switch_twice = true /\
  dtrace st_switch_twice =
    [Dv_call (Call_StartMapPort false true); Dv_signal;
     Dv_call (Call_StartMapPort false true); Dv_spawn;
     Dv_call (Call_StartMapPort true false)].
Proof. repeat split; vm_compute; reflexivity. Qed.

(** * Concrete instances of the further properties *)

Lemma MapPortProtoSetEnabled_bits_witness :
  0 <= 3 <= UINT_MAX /\
  MapPortProtoSetEnabled UPNP false 3 = 2 /\
  0 <= MapPortProtoSetEnabled UPNP false 3 <= UINT_MAX.
Proof.
  assert (H : 0 <= 3 <= UINT_MAX) by (unfold UINT_MAX; lia).
  split; [exact H|]. split; [reflexivity|].
  exact (proj1 (MapPortProtoSetEnabled_bits UPNP false 3 H)).
Defined.

Lemma MapPortProtoSetEnabled_has_proto_witness :
  0 <= 1 <= UINT_MAX /\ NAT_PMP <> NONE /\
  has_proto (MapPortProtoSetEnabled NAT_PMP true 1) NAT_PMP = true /\
  has_proto (MapPortProtoSetEnabled NAT_PMP true 1) UPNP = has_proto 1 UPNP.
Proof.
  assert (H : 0 <= 1 <= UINT_MAX) by (unfold UINT_MAX; lia).
  split; [exact H|]. split; [discriminate|]. split.
  - exact (MapPortProtoSetEnabled_has_proto NAT_PMP true 1 NAT_PMP H
             ltac:(discriminate)).
  - exact (MapPortProtoSetEnabled_has_proto NAT_PMP true 1 UPNP H
             ltac:(discriminate)).
Defined.

Definition st_switched : state :=
  Eval vm_compute in
    final true (run_upnp_enabled
                  ++ A_call (Call_StartMapPort false true) :: caller_steps 7).

Lemma StartMapPort_sets_requested_protos_witness :
  reachable true st_upnp_enabled /\
  caller st_upnp_enabled = D_idle /\
  g_mapport_enabled_protos st_upnp_enabled = 1 /\
  exec true (A_call (Call_StartMapPort false true) :: caller_steps 7)
       st_upnp_enabled = Some st_switched /\
  g_mapport_enabled_protos st_switched = requested false true.
Proof.
  assert (Hr : reachable true st_upnp_enabled).
  { apply (exec_reachable true run_upnp_enabled init);
      [constructor | vm_compute; reflexivity]. }
  assert (He : exec true
                 (A_call (Call_StartMapPort false true) :: caller_steps 7)
                 st_upnp_enabled = Some st_switched)
    by (vm_compute; reflexivity).
  split; [exact Hr|]. do 2 (split; [reflexivity|]). split; [exact He|].
  apply (StartMapPort_sets_requested_protos true st_upnp_enabled
           false true (caller_steps 7) st_switched);
    [exact Hr | reflexivity | reflexivity | exact He | reflexivity].
Defined.

Lemma enabled_protos_only_hold_the_flags_witness :
  reachable true st_upnp_enabled /\
  0 <= g_mapport_enabled_protos st_upnp_enabled <= 3.
Proof.
  assert (Hr : reachable true st_upnp_enabled).
  { apply (exec_reachable true run_upnp_enabled init);
      [constructor | vm_compute; reflexivity]. }
  split; [exact Hr|].
  exact (enabled_protos_only_hold_the_flags true st_upnp_enabled Hr).
Defined.

Lemma no_thread_means_idle_globals_witness :
  reachable true st_disabled /\ joinable st_disabled = false /\
  g_mapport_current_proto st_disabled = NONE.
Proof.
  assert (Hr : reachable true st_disabled).
  { apply (exec_reachable true (run_disable_active ++ run_disable_completed)
                          init);
      [constructor | vm_compute; reflexivity]. }
  split; [exact Hr|]. split; [reflexivity|].
  exact (proj1 (no_thread_means_idle_globals true st_disabled Hr eq_refl)).
Defined.

(** The switch request of [run_switch_during_discovery], stopped at line 178. *)
Definition st_at_178 : state :=
  Eval vm_compute in
    final true (run_upnp_active
                  ++ A_call (Call_StartMapPort false true) :: caller_steps 8).

Lemma assertions_151_178_never_fail_witness :
  reachable true st_at_178 /\ caller st_at_178 = D_178 /\
  joinable st_at_178 = true.
Proof.
  assert (Hr : reachable true st_at_178).
  { apply (exec_reachable true
             (run_upnp_active
                ++ A_call (Call_StartMapPort false true) :: caller_steps 8)
             init);
      [constructor | vm_compute; reflexivity]. }
  split; [exact Hr|]. split; [reflexivity|].
  exact (proj1 (proj2 (assertions_151_178_never_fail true st_at_178 Hr))
           eq_refl).
Defined.

Lemma at_most_one_worker_witness :
  reachable true st_disabled /\
  dtrace st_disabled =
    [Dv_reset; Dv_join; Dv_signal; Dv_call (Call_StartMapPort false false);
     Dv_spawn; Dv_call (Call_StartMapPort true false)] /\
  live_threads (dtrace st_disabled) = if joinable st_disabled then 1 else 0.
Proof.
  assert (Hr : reachable true st_disabled).
  { apply (exec_reachable true (run_disable_active ++ run_disable_completed)
                          init);
      [constructor | vm_compute; reflexivity]. }
  split; [exact Hr|]. split; [reflexivity|].
  exact (at_most_one_worker true st_disabled Hr).
Defined.

Lemma StartMapPort_when_idle_witness :
  reachable true init /\
  invoke true (Call_StartMapPort true false) init = Some st_upnp_enabled.
Proof.
  split; [constructor|].
  exact (StartMapPort_when_idle true init true false (reach_init true)
           eq_refl eq_refl).
Defined.

Definition st_upnp_active : state :=
  Eval vm_compute in final true run_upnp_active.

Lemma st_upnp_active_reachable : reachable true st_upnp_active.
Proof.
  apply (exec_reachable true run_upnp_active init);
    [constructor | vm_compute; reflexivity].
Qed.

Lemma StartMapPort_switches_protocol_witness :
  reachable true st_upnp_active /\
  g_mapport_current_proto st_upnp_active = UPNP /\
  g_mapport_interrupt st_upnp_active = false /\
  invoke true (Call_StartMapPort false true) st_upnp_active =
    Some (dlog Dv_signal
            (set_interrupt true
               (dlog (Dv_call (Call_StartMapPort false true))
                  (set_enabled (requested false true) st_upnp_active)))).
Proof.
  split; [exact st_upnp_active_reachable|]. do 2 (split; [reflexivity|]).
  apply (proj1 (StartMapPort_switches_protocol true st_upnp_active false true
                  st_upnp_active_reachable eq_refl
                  ltac:(discriminate) ltac:(discriminate) eq_refl)).
  reflexivity.
Defined.

Lemma StartThreadMapPort_is_lazy_witness :
  reachable true st_upnp_active /\ joinable st_upnp_active = true /\
  invoke true Call_StartThreadMapPort st_upnp_active =
    Some (dlog (Dv_call Call_StartThreadMapPort) st_upnp_active).
Proof.
  split; [exact st_upnp_active_reachable|]. split; [reflexivity|].
  exact (StartThreadMapPort_is_lazy true st_upnp_active
           st_upnp_active_reachable eq_refl).
Defined.

Definition st_idle_exit : state :=
  Eval vm_compute in final true run_idle_exit.

Definition st_stopped : state :=
  Eval vm_compute in
    final true (run_idle_exit ++ A_call Call_StopMapPort :: caller_steps 3).

Lemma StopMapPort_joins_and_rearms_witness :
  reachable true st_idle_exit /\ joinable st_idle_exit = true /\
  exec true (A_call Call_StopMapPort :: caller_steps 3) st_idle_exit =
    Some st_stopped /\
  joinable st_stopped = false /\
  g_mapport_interrupt st_stopped = false /\
  dtrace st_stopped =
    [Dv_reset; Dv_join] ++ Dv_call Call_StopMapPort :: dtrace st_idle_exit.
Proof.
  assert (Hr : reachable true st_idle_exit).
  { apply (exec_reachable true run_idle_exit init);
      [constructor | vm_compute; reflexivity]. }
  assert (He : exec true (A_call Call_StopMapPort :: caller_steps 3)
                 st_idle_exit = Some st_stopped) by (vm_compute; reflexivity).
  split; [exact Hr|]. split; [reflexivity|]. split; [exact He|].
  destruct (StopMapPort_joins_and_rearms true st_idle_exit (caller_steps 3)
              st_stopped Hr eq_refl eq_refl He eq_refl)
    as (H1 & H2 & _ & _ & H3).
  split; [exact H1 | split; [exact H2 | exact H3]].
Defined.

(** InterruptMapPort(); StopMapPort() while ProcessUpnp is discovering. *)
Definition st_shutdown_1 : state :=
  Eval vm_compute in
    final true (run_upnp_active
                  ++ A_call Call_InterruptMapPort :: caller_steps 3).

Definition run_stop_completed : list action :=
  caller_steps 1
    ++ worker_steps [false; false; false; false; false; false]
    ++ caller_steps 2.

Definition st_shutdown_2 : state :=
  Eval vm_compute in
    final true (run_upnp_active
                  ++ A_call Call_InterruptMapPort :: caller_steps 3
                  ++ A_call Call_StopMapPort :: run_stop_completed).

Lemma shutdown_sequence_terminates_witness :
  reachable true st_upnp_active /\
  exec true (A_call Call_InterruptMapPort :: caller_steps 3) st_upnp_active =
    Some st_shutdown_1 /\
  exec true (A_call Call_StopMapPort :: run_stop_completed) st_shutdown_1 =
    Some st_shutdown_2 /\
  caller st_shutdown_2 = D_idle /\
  g_mapport_enabled_protos st_shutdown_2 = 0 /\
  joinable st_shutdown_2 = false /\
  g_mapport_interrupt st_shutdown_2 = false /\
  g_mapport_current_proto st_shutdown_2 = NONE.
Proof.
  assert (H1 : exec true (A_call Call_InterruptMapPort :: caller_steps 3)
                 st_upnp_active = Some st_shutdown_1)
    by (vm_compute; reflexivity).
  assert (H2 : exec true (A_call Call_StopMapPort :: run_stop_completed)
                 st_shutdown_1 = Some st_shutdown_2)
    by (vm_compute; reflexivity).
  split; [exact st_upnp_active_reachable|].
  split; [exact H1|]. split; [exact H2|]. split; [reflexivity|].
  exact (proj2 (proj2
           (shutdown_sequence_terminates true st_upnp_active (caller_steps 3)
              st_shutdown_1 run_stop_completed st_shutdown_2
              st_upnp_active_reachable eq_refl eq_refl H1 eq_refl eq_refl H2))
           eq_refl).
Defined.

Definition st_discovered : state :=
  Eval vm_compute in final true (run_upnp_active ++ worker_steps [true]).

Lemma worker_only_clears_token_witness :
  worker_step true true st_upnp_active = Some st_discovered /\
  g_mapport_enabled_protos st_discovered =
    g_mapport_enabled_protos st_upnp_active /\
  joinable st_discovered = true.
Proof.
  assert (H : worker_step true true st_upnp_active = Some st_discovered)
    by (vm_compute; reflexivity).
  split; [exact H|].
  destruct (worker_only_clears_token true true st_upnp_active st_discovered H)
    as (_ & H1 & H2 & _).
  split; [exact H1 | exact H2].
Defined.

Lemma ProcessUpnp_true_needs_interrupt_witness :
  g_mapport_interrupt st_upnp_active = false /\
  returning_true (g_mapport_thread st_upnp_active) = false /\
  g_mapport_thread
    (worker_run true [true; true; true; true; true; true] st_upnp_active) =
    Some (W_upnp U_sleep) /\
  exists newer,
    wtrace
      (worker_run true [true; true; true; true; true; true] st_upnp_active) =
      newer ++ wtrace st_upnp_active /\
    ~ In (Ev_upnp_ret true) newer.
Proof.
  do 3 (split; [reflexivity|]).
  exact (proj2 (ProcessUpnp_true_needs_interrupt true
                  [true; true; true; true; true; true] st_upnp_active
                  eq_refl eq_refl)).
Defined.

(** A build without NAT-PMP asked for NAT-PMP only. *)
Definition run_natpmp_only : list action :=
  A_call (Call_StartMapPort false true) :: caller_steps 9
    ++ worker_steps [true; true; true; true].

Definition st_natpmp_only : state :=
  Eval vm_compute in final false run_natpmp_only.

Lemma st_natpmp_only_reachable : reachable false st_natpmp_only.
Proof.
  apply (exec_reachable false run_natpmp_only init);
    [constructor | vm_compute; reflexivity].
Qed.

Lemma build_without_natpmp_never_uses_it_witness :
  reachable false st_natpmp_only /\
  g_mapport_enabled_protos st_natpmp_only = 2 /\
  wtrace st_natpmp_only =
    [Ev_wait true; Ev_read L141 2; Ev_publish NONE; Ev_read L124 2] /\
  ~ In Ev_natpmp_call (wtrace st_natpmp_only).
Proof.
  split; [exact st_natpmp_only_reachable|]. do 2 (split; [reflexivity|]).
  exact (proj1 (proj2 (proj2
           (build_without_natpmp_never_uses_it false st_natpmp_only
              eq_refl st_natpmp_only_reachable)))).
Defined.

Definition st_switch_then_fail : state :=
  Eval vm_compute in final true run_switch_then_fail.

Lemma after_natpmp_returns_witness :
  reachable true st_switch_then_fail /\
  forall newer y older,
    wtrace st_switch_then_fail =
      newer ++ y :: Ev_natpmp_ret false :: older ->
    y = Ev_publish NONE.
Proof.
  assert (Hr : reachable true st_switch_then_fail).
  { apply (exec_reachable true run_switch_then_fail init);
      [constructor | vm_compute; reflexivity]. }
  split; [exact Hr|].
  exact (proj2 (after_natpmp_returns true st_switch_then_fail Hr)).
Defined.

(** ProcessUpnp holds a mapping when the switch to NAT-PMP is requested. *)
Definition st_switch_while_mapped : state :=
  Eval vm_compute in
    final true (run_upnp_active ++ worker_steps [true; true]
                  ++ A_call (Call_StartMapPort false true) :: caller_steps 11).

Lemma interrupt_forces_next_protocol_witness :
  g_mapport_thread st_switch_while_mapped = Some (W_upnp U_sleep) /\
  g_mapport_interrupt st_switch_while_mapped = true /\
  g_mapport_enabled_protos st_switch_while_mapped = 2 /\
  g_mapport_current_proto
    (worker_run true [true; true; true; true; true; true; true; true]
       st_switch_while_mapped) = NAT_PMP /\
  g_mapport_interrupt
    (worker_run true [true; true; true; true; true; true; true; true]
       st_switch_while_mapped) = false.
Proof.
  do 3 (split; [reflexivity|]).
  destruct (interrupt_forces_next_protocol true st_switch_while_mapped
              [true; true; true; true; true; true; true; true]
              eq_refl eq_refl eq_refl eq_refl eq_refl eq_refl)
    as (_ & H1 & H2 & _).
  split; [exact H1 | exact H2].
Defined.

Definition st_spawned_idle : state :=
  Eval vm_compute in
    match invoke true Call_StartThreadMapPort init with
    | Some s => s
    | None => init
    end.

Lemma worker_with_nothing_enabled_returns_witness :
  g_mapport_thread st_spawned_idle = Some W_test_upnp /\
  g_mapport_enabled_protos st_spawned_idle = 0 /\
  worker_finished
    (worker_run true [true; true; true; true; true] st_spawned_idle) = true /\
  g_mapport_current_proto
    (worker_run true [true; true; true; true; true] st_spawned_idle) = NONE.
Proof.
  do 2 (split; [reflexivity|]).
  destruct (worker_with_nothing_enabled_returns true st_spawned_idle
              [true; true; true; true; true] eq_refl eq_refl
              ltac:(simpl; lia))
    as (H1 & H2 & _).
  split; [exact H1 | exact H2].
Defined.

Lemma unsupported_protocol_is_retried_forever_witness :
  g_mapport_interrupt st_natpmp_only = false /\
  has_proto (g_mapport_enabled_protos st_natpmp_only) UPNP = false /\
  g_mapport_enabled_protos st_natpmp_only <> 0 /\
  idling (g_mapport_thread st_natpmp_only) = true /\
  worker_finished
    (worker_run false [true; true; true; true; true; true; true]
       st_natpmp_only) = false.
Proof.
  do 2 (split; [reflexivity|]). split; [discriminate|].
  split; [reflexivity|].
  exact (proj1 (proj2
           (unsupported_protocol_is_retried_forever false
              [true; true; true; true; true; true; true] st_natpmp_only
              eq_refl eq_refl eq_refl ltac:(discriminate) eq_refl))).
Defined.
